(** * Name deconfliction, placeholder emission and diagnostics of
    [Component] (src/unnamed/part_000) and the DOM renderer entry point
    (src/src/compile/render-dom/index.ts). *)

From stdpp Require Import base gmap sets list strings pretty.

(** ** The alias registry: [alias], [getUniqueName], [getUniqueNameMaker] *)

Module Registry.

Section Registry.

(** [reservedNames] (utils/reservedNames) and the [test] flag (config) are
    process-wide, read-only values. *)
Variable reservedNames : gset string.
Variable test : bool.

(** The fields of [Component] that the registry reads and writes. *)
Record Component := mkComponent {
  userVars : gset string;
  aliases : gmap string string;
  usedNames : gset string
}.

(** [if (test) name = `${name}$`] *)
Definition testName (name : string) : string :=
  if test then name +:+ "$" else name.

(** [`${name}_${i}`] *)
Definition suffixed (name : string) (i : nat) : string :=
  name +:+ "_" +:+ pretty i.

(** The [for] loop of [getUniqueName] and of the closure returned by
    [getUniqueNameMaker]:
    [for (let i = 1; blocked(alias); alias = `${name}_${i++}`);]
    The loop state is [(alias, i)]; [fuel] bounds the iterations (the
    callers pass the size of the blocking set, which is always enough, see
    [search_not_blocked]). *)
Fixpoint search (blocked : string -> bool) (name alias : string) (i : nat)
    (fuel : nat) : string :=
  if blocked alias then
    match fuel with
    | O => alias
    | S fuel' => search blocked name (suffixed name i) (S i) fuel'
    end
  else alias.

Definition blockedGlobal (c : Component) (a : string) : bool :=
  bool_decide (a ∈ reservedNames) || bool_decide (a ∈ userVars c)
  || bool_decide (a ∈ usedNames c).

(** The successive values of [alias] in that loop: [name], [name_1],
    [name_2], ... *)
Definition cand (name : string) (k : nat) : string :=
  match k with
  | O => name
  | S _ => suffixed name k
  end.

(** [getUniqueName(name)] *)
Definition getUniqueName (name : string) (c : Component) : string * Component :=
  let name := testName name in
  let alias := search (blockedGlobal c) name name 1
                 (size (reservedNames ∪ userVars c ∪ usedNames c)) in
  (alias, mkComponent (userVars c) (aliases c) ({[alias]} ∪ usedNames c)).

(** [alias(name)]: memoised through [this.aliases]. *)
Definition alias (name : string) (c : Component) : string * Component :=
  match aliases c !! name with
  | Some a => (a, c)
  | None =>
      let '(a, c') := getUniqueName name c in
      (a, mkComponent (userVars c') (<[name := a]> (aliases c')) (usedNames c'))
  end.

(** [getUniqueNameMaker()]: the closure's private [localUsedNames], seeded
    with [reservedNames] and [this.userVars]. *)
Definition getUniqueNameMaker (c : Component) : gset string :=
  reservedNames ∪ userVars c.

(** One call of the closure returned by [getUniqueNameMaker]; [c] is the
    component at the time of the call ([this.usedNames] is read live). *)
Definition makerCall (c : Component) (localUsedNames : gset string)
    (name : string) : string * gset string :=
  let name := testName name in
  let alias := search
      (fun a => bool_decide (a ∈ usedNames c) || bool_decide (a ∈ localUsedNames))
      name name 1 (size (usedNames c ∪ localUsedNames)) in
  (alias, {[alias]} ∪ localUsedNames).

(** The state right after [walkJs]: [userVars] filled, nothing allocated. *)
Definition afterWalkJs (userVarsInit : gset string) : Component :=
  mkComponent userVarsInit ∅ ∅.

(** [this.name = this.alias(name)] in the constructor, right after
    [walkJs]; this is the [name] of [class ${name} extends @SvelteComponent]
    in [dom]. *)
Definition componentName (requested : string) (userVarsInit : gset string) : string :=
  fst (alias requested (afterWalkJs userVarsInit)).

(** Requests made to the component itself. *)
Inductive Request :=
  | ReqAlias (name : string)
  | ReqUnique (name : string).

Definition serve (r : Request) (c : Component) : string * Component :=
  match r with
  | ReqAlias n => alias n c
  | ReqUnique n => getUniqueName n c
  end.

Fixpoint serveAll (rs : list Request) (c : Component) : list string * Component :=
  match rs with
  | [] => ([], c)
  | r :: rs' =>
      let '(a, c1) := serve r c in
      let '(out, c2) := serveAll rs' c1 in
      (a :: out, c2)
  end.

(** The component together with the closures handed out by
    [getUniqueNameMaker] (their [localUsedNames], by creation order). *)
Record World := mkWorld {
  comp : Component;
  makers : list (gset string)
}.

Inductive Op :=
  | OpAlias (name : string)
  | OpGetUniqueName (name : string)
  | OpGetUniqueNameMaker
  | OpMakerCall (k : nat) (name : string).

Definition step (o : Op) (w : World) : option string * World :=
  match o with
  | OpAlias n => let '(a, c) := alias n (comp w) in (Some a, mkWorld c (makers w))
  | OpGetUniqueName n =>
      let '(a, c) := getUniqueName n (comp w) in (Some a, mkWorld c (makers w))
  | OpGetUniqueNameMaker =>
      (None, mkWorld (comp w) (makers w ++ [getUniqueNameMaker (comp w)]))
  | OpMakerCall k n =>
      match makers w !! k with
      | Some l =>
          let '(a, l') := makerCall (comp w) l n in
          (Some a, mkWorld (comp w) (<[k := l']> (makers w)))
      | None => (None, w)
      end
  end.

Fixpoint run (os : list Op) (w : World) : World :=
  match os with
  | [] => w
  | o :: os' => run os' (snd (step o w))
  end.

(** Bookkeeping of a run of requests: [hr] are the requests served so far
    and [ho] their answers, in order. *)
Definition HistInv (U : gset string) (c : Component) (hr : list Request)
    (ho : list string) : Prop :=
  userVars c = U /\ length hr = length ho /\
  (forall a, a ∈ usedNames c -> a ∉ reservedNames ∪ U) /\
  (forall n a, aliases c !! n = Some a -> a ∈ usedNames c) /\
  (forall n1 n2 a, aliases c !! n1 = Some a -> aliases c !! n2 = Some a -> n1 = n2) /\
  (forall a, a ∈ ho -> a ∈ usedNames c) /\
  (forall i n a, ho !! i = Some a -> aliases c !! n = Some a ->
     hr !! i = Some (ReqAlias n)) /\
  (forall i j a, i < j -> ho !! i = Some a -> ho !! j = Some a ->
     exists n, hr !! i = Some (ReqAlias n) /\ hr !! j = Some (ReqAlias n)).

(** Every closure handed out so far was seeded with the reserved names and
    the user's names. *)
Definition makersSeeded (w : World) : Prop :=
  forall k l, makers w !! k = Some l -> reservedNames ∪ userVars (comp w) ⊆ l.

End Registry.

End Registry.

(** ** Placeholder emission: [generate] *)

Module Emit.

(** JS strings are sequences of UTF-16 code units. *)
Definition text := list N.

Definition units (s : string) : text :=
  map Ascii.N_of_ascii (String.list_ascii_of_string s).

(** U+2702, the scissors of the span markers. *)
Definition scissors : N := 9986.
Definition lbracket : N := 91.
Definition rbracket : N := 93.
Definition dash : N := 45.

Definition isDigit (c : N) : bool := (48 <=? c)%N && (c <=? 57)%N.

(** [`[✂${a}-${b}✂]`] as written by [walkJs], for digit strings [da], [db]. *)
Definition spanMarker (da db : text) : text :=
  [lbracket; scissors] ++ da ++ [dash] ++ db ++ [scissors; rbracket].

(** *** A model of magic-string: the original text and the removed ranges. *)
Record MagicString := mkMS {
  original : text;
  removed : list (nat * nat)
}.

Definition newMagicString (s : text) : MagicString := mkMS s [].

Definition removedAt (rs : list (nat * nat)) (i : nat) : bool :=
  existsb (fun '(a, b) => (a <=? i) && (i <? b)) rs.

Fixpoint keep (rm : nat -> bool) (i : nat) (t : text) : text :=
  match t with
  | [] => []
  | c :: t' => if rm i then keep rm (S i) t' else c :: keep rm (S i) t'
  end.

(** [ms.toString()] *)
Definition msToString (m : MagicString) : text :=
  keep (removedAt (removed m)) 0 (original m).



(** [ms.remove(start, end)]; [None] where magic-string throws. *)
Definition msRemove (m : MagicString) (s e : nat) : option MagicString :=
  if s =? e then Some m
  else if length (original m) <? e then None
  else if e <? s then None
  else Some (mkMS (original m) (removed m ++ [(s, e)])).

(** [ms.snip(start, end)]: [clone().remove(0, start).remove(end, length)]. *)
Definition msSnip (m : MagicString) (s e : nat) : option MagicString :=
  match msRemove m 0 s with
  | Some m1 => msRemove m1 e (length (original m))
  | None => None
  end.

(** One [addSource] of a magic-string [Bundle]. *)
Record BundleSource := mkSource {
  srcFilename : option string;
  srcContent : MagicString
}.


(** JS truthiness of [source.filename] (and of [options.file]). *)
Definition truthyFilename (f : option string) : option string :=
  match f with
  | Some "" => None
  | Some n => Some n
  | None => None
  end.

(** [uniqueSources] of the bundle: the first source of each truthy filename,
    with [content: source.content.original]; [generateMap] takes [sources]
    and [sourcesContent] from it. *)
Fixpoint uniqueSources (b : list BundleSource) (seen : list string)
    : list (string * text) :=
  match b with
  | [] => []
  | s :: b' =>
      match truthyFilename (srcFilename s) with
      | Some f =>
          if bool_decide (f ∈ seen) then uniqueSources b' seen
          else (f, original (srcContent s)) :: uniqueSources b' (f :: seen)
      | None => uniqueSources b' seen
      end
  end.

(** [p.split(/[/\\]/)] (code units 47 and 92). *)
Definition isPathSep (c : Ascii.ascii) : bool :=
  (Ascii.N_of_ascii c =? 47)%N || (Ascii.N_of_ascii c =? 92)%N.

Fixpoint splitPath (p : string) : list string :=
  match p with
  | EmptyString => [""]
  | String c p' =>
      if isPathSep c then "" :: splitPath p'
      else match splitPath p' with
           | q :: qs => String c q :: qs
           | [] => [String c ""]
           end
  end.

(** [while (fromParts[0] === toParts[0]) { fromParts.shift(); toParts.shift(); }]
    Once both arrays are empty, [undefined === undefined] holds for ever and
    the loop does not end: [None]. *)
Fixpoint dropCommon (fs ts : list string) : option (list string * list string) :=
  match fs, ts with
  | [], [] => None
  | f :: fs', t :: ts' => if bool_decide (f = t) then dropCommon fs' ts' else Some (fs, ts)
  | _, _ => Some (fs, ts)
  end.

(** magic-string's [getRelativePath(from, to)]: [fromParts.pop()] drops the
    file name of [from], the common leading parts are dropped, each part of
    [from] left becomes [..], and the parts are joined with [/]. [None]
    where the loop above does not end. *)
Definition getRelativePath (from to : string) : option string :=
  match dropCommon (removelast (splitPath from)) (splitPath to) with
  | Some (fs, ts) => Some (String.concat "/" (map (fun _ => "..") fs ++ ts))
  | None => None
  end.

(** [sources] of [bundle.generateMap({ file, ... })]:
    [options.file ? getRelativePath(options.file, source.filename)
                  : source.filename] for each unique source; [None] where
    [generateMap] does not return. *)
Definition mapSources (file : option string) (b : list BundleSource) : option (list string) :=
  mapM (fun f => match truthyFilename file with
                 | Some o => getRelativePath o f
                 | None => Some f
                 end) (map fst (uniqueSources b [])).

Definition mapSourcesContent (b : list BundleSource) : list text :=
  map snd (uniqueSources b []).


(** Does the text contain the closing token [✂]]? *)
Fixpoint hasCloser (s : text) : bool :=
  match s with
  | x :: tl =>
      match tl with
      | y :: _ => ((x =? scissors)%N && (y =? rbracket)%N) || hasCloser tl
      | [] => false
      end
  | [] => false
  end.

(** *** [module.split('✂]')] *)
Fixpoint splitGo (s acc : text) : list text :=
  match s with
  | [] => [rev acc]
  | x :: tl =>
      match tl with
      | y :: rest =>
          if (x =? scissors)%N && (y =? rbracket)%N then rev acc :: splitGo rest []
          else splitGo tl (x :: acc)
      | [] => [rev (x :: acc)]
      end
  end.

Definition splitCloser (s : text) : list text := splitGo s [].

(** [parts.pop()]: the parts but the last, and the last. *)
Definition popLast (ps : list text) : list text * text :=
  match rev ps with
  | last :: restRev => (rev restRev, last)
  | [] => ([], [])
  end.

(** *** [pattern = /\[✂(\d+)-(\d+)$/] *)
Fixpoint spanDigits (r : text) : text * text :=
  match r with
  | c :: r' =>
      if isDigit c then let '(d, rest) := spanDigits r' in (c :: d, rest)
      else ([], r)
  | [] => ([], [])
  end.

(** [+digits] *)
Definition digitsVal (d : text) : nat :=
  fold_left (fun acc c => acc * 10 + N.to_nat (c - 48)) d 0.

(** [pattern.exec(str)] together with [str.replace(pattern, '')]: the text
    before the match and the two numbers; [None] when there is no match. *)
Definition execPattern (str : text) : option (text * nat * nat) :=
  let '(d2r, r1) := spanDigits (rev str) in
  match d2r, r1 with
  | _ :: _, m :: r2 =>
      if (m =? dash)%N then
        let '(d1r, r3) := spanDigits r2 in
        match d1r, r3 with
        | _ :: _, sc :: lb :: r4 =>
            if (sc =? scissors)%N && (lb =? lbracket)%N then
              Some (rev r4, digitsVal (rev d1r), digitsVal (rev d2r))
            else None
        | _, _ => None
        end
      else None
  | _, _ => None
  end.

(** [addString(str)] *)
Definition stringSource (str : text) : BundleSource :=
  mkSource None (newMagicString str).

(** The body of [parts.forEach] for one part; [None] where the code throws
    ([match] is [null], or [snip] is out of bounds). *)
Definition partSources (filename : option string) (code : MagicString) (str : text)
    : option (list BundleSource) :=
  match execPattern str with
  | Some (chunk, s, e) =>
      match msSnip code s e with
      | Some snippet =>
          Some ((match chunk with [] => [] | _ => [stringSource chunk] end) ++
                [mkSource filename snippet])
      | None => None
      end
  | None => None
  end.

Fixpoint partsSources (filename : option string) (code : MagicString)
    (parts : list text) : option (list BundleSource) :=
  match parts with
  | [] => Some []
  | p :: ps =>
      match partSources filename code p, partsSources filename code ps with
      | Some a, Some b => Some (a ++ b)
      | _, _ => None
      end
  end.

(** The bundle built by [generate] from the wrapped [module] text:
    [this.source] is [source], [this.code] is [code]. *)
Definition assemble (filename : option string) (source : text) (code : MagicString)
    (module : text) : option (list BundleSource) :=
  let '(parts, finalChunk) := popLast (splitCloser module) in
  let empty :=
    match parts with
    | [] =>
        match msRemove (newMagicString source) 0 (length source) with
        | Some m => [mkSource filename m]
        | None => []
        end
    | _ => []
    end in
  match partsSources filename code parts with
  | Some srcs => Some (empty ++ srcs ++ [stringSource finalChunk])
  | None => None
  end.




Definition segPart (seg : text * text * text) : text :=
  let '(c, da, db) := seg in c ++ [lbracket; scissors] ++ da ++ [dash] ++ db.

(** A nonempty string of decimal digits, as matched by [(\d+)]; and a
    segment whose chunk holds no [✂]] and whose span lies within [source]. *)
Definition digitsOk (d : text) : Prop := d <> [] /\ Forall (fun x => isDigit x = true) d.


End Emit.

(** ** [generate]: the replacement of the sigils [@name], [%name] (and
    [#name] for [ssr]) in the generated code *)

Module Sigils.
Import Registry Emit.

Definition percent : N := 37.
Definition atSign : N := 64.
Definition hashSign : N := 35.

(** [\w] *)
Definition isWordChar (c : N) : bool :=
  ((48 <=? c)%N && (c <=? 57)%N) || ((65 <=? c)%N && (c <=? 90)%N) ||
  ((97 <=? c)%N && (c <=? 122)%N) || (c =? 95)%N.

Fixpoint spanWhile (p : N -> bool) (t : text) : text * text :=
  match t with
  | c :: t' => if p c then let '(a, r) := spanWhile p t' in (c :: a, r) else ([], t)
  | [] => ([], [])
  end.

(** The name group of the pattern, [\w] characters optionally followed by
    a dash and more [\w] characters, and the text after it. *)
Definition matchName (t : text) : text * text :=
  let '(w1, r1) := spanWhile isWordChar t in
  match r1 with
  | c :: r2 =>
      if (c =? dash)%N then
        let '(w2, r3) := spanWhile isWordChar r2 in (w1 ++ [dash] ++ w2, r3)
      else (w1, r1)
  | [] => (w1, r1)
  end.

Definition textToString (t : text) : string :=
  String.string_of_list_ascii (map Ascii.ascii_of_N t).

Section Sigils.
Variable reservedNames : gset string.
Variable test : bool.
(** [options.dev], the keys of [shared], [this.templateVars] and
    [options.generate === 'ssr'] *)
Variable dev : bool.
Variable shared : gset string.
Variable templateVars : gmap string string.
Variable ssr : bool.

(** The first character of a match of [(%+|@+)], or of [(@+|#+|%+)] for [ssr]. *)
Definition isSigilChar (c : N) : bool :=
  (c =? percent)%N || (c =? atSign)%N || (ssr && (c =? hashSign)%N).

(** [name in shared] and the [Dev] variant. *)
Definition helperName (name : string) : string :=
  if bool_decide (name ∈ shared) then
    if dev && bool_decide ((name +:+ "Dev") ∈ shared) then name +:+ "Dev" else name
  else name.

Definition addHelper (name : string) (helpers : gset string) : gset string :=
  if bool_decide (name ∈ shared) then {[helperName name]} ∪ helpers else helpers.

(** [this.templateVars.get(name)] as inserted by [replace]: [undefined]
    becomes the text ["undefined"]. *)
Definition templateValue (name : string) : text :=
  match templateVars !! name with
  | Some v => units v
  | None => units "undefined"
  end.

(** The replacement callback, threading the component (for [this.alias])
    and the set [helpers]. *)
Definition sigilValue (sigil name : text) (st : Component * gset string)
    : text * (Component * gset string) :=
  let '(c, helpers) := st in
  let n := textToString name in
  if bool_decide (sigil = [atSign]) then
    let '(a, c') := alias reservedNames test (helperName n) c in
    (units a, (c', addHelper n helpers))
  else if bool_decide (sigil = [percent]) then (templateValue n, st)
  else (tail sigil ++ name, st).

(** [result.replace(pattern, callback)] with the global flag, scanning left
    to right; [fuel] bounds the number of steps. *)
Fixpoint replaceGo (fuel : nat) (t : text) (st : Component * gset string)
    : text * (Component * gset string) :=
  match fuel with
  | O => (t, st)
  | S f =>
      match t with
      | [] => ([], st)
      | c :: t' =>
          if isSigilChar c then
            let '(run, r1) := spanWhile (N.eqb c) t in
            let '(w, r2) := matchName r1 in
            let '(v, st1) := sigilValue run w st in
            let '(out, st2) := replaceGo f r2 st1 in
            (v ++ out, st2)
          else
            let '(out, st1) := replaceGo f t' st in (c :: out, st1)
      end
  end.

Definition replaceSigils (t : text) (st : Component * gset string)
    : text * (Component * gset string) :=
  replaceGo (length t) t st.

End Sigils.

End Sigils.

(** ** The check of the [refs.<name>] callees at the end of the constructor *)

Module Refs.

(** Modelled from the spec: [this.error(pos, { code, message })] calls
    [error] of the compiler's utils (not in this tree), which raises a
    fatal diagnostic carrying the code, the message and the position and
    ends the compilation of the unit. *)
Record Diagnostic := mkDiag {
  diagCode : string;
  diagMessage : string;
  diagStart : nat;
  diagEnd : nat
}.

Inductive Outcome :=
| Ok
| Fatal (d : Diagnostic).

(** A collected callee: [parts[1]] of [flattenReference(callee)], the name
    after [refs.], and the callee's position. *)
Record Callee := mkCallee {
  calleeRef : string;
  calleeStart : nat;
  calleeEnd : nat
}.

Section Refs.
(** [fuzzymatch(name, names)], of the validator's utils. *)
Variable fuzzymatch : string -> list string -> option string.

(** The message, with the suggestion when [match] is truthy. *)
Definition missingRefMessage (ref : string) (m : option string) : string :=
  "'refs." +:+ ref +:+ "' does not exist" +:+
  match m with
  | Some x => if bool_decide (x = "") then "" else " (did you mean 'refs." +:+ x +:+ "'?)"
  | None => ""
  end.

(** [this.refCallees.forEach(...)] with [this.refs] as the list of its keys
    in insertion order; the first miss raises. *)
Fixpoint checkRefs (refs : list string) (callees : list Callee) : Outcome :=
  match callees with
  | [] => Ok
  | cl :: rest =>
      if bool_decide (calleeRef cl ∈ refs) then checkRefs refs rest
      else
        Fatal (mkDiag "missing-ref"
                 (missingRefMessage (calleeRef cl) (fuzzymatch (calleeRef cl) refs))
                 (calleeStart cl) (calleeEnd cl))
  end.

End Refs.

(** Modelled from the spec: an approximate string match based on the edit
    distance. The similarity of two names is [1 - d / m], with [d] their
    Levenshtein distance and [m] the length of the longer one; the best
    candidate is suggested when its similarity exceeds 0.7. *)
Fixpoint lev (a b : list Ascii.ascii) : nat :=
  match a with
  | [] => length b
  | x :: a' =>
      (fix levb (b : list Ascii.ascii) : nat :=
         match b with
         | [] => length a
         | y :: b' =>
             Nat.min (Nat.min (S (lev a' b)) (S (levb b')))
               (lev a' b' + if Ascii.ascii_dec x y then 0 else 1)
         end) b
  end.

Definition similarity (name n : string) : nat * nat :=
  let a := String.list_ascii_of_string name in
  let b := String.list_ascii_of_string n in
  let mx := Nat.max (length a) (length b) in
  (mx - lev a b, mx).

Definition bestMatch (name : string) (names : list string) : option (string * nat * nat) :=
  fold_left (fun acc n =>
    let '(p, q) := similarity name n in
    match acc with
    | None => Some (n, p, q)
    | Some (_, p0, q0) => if p0 * q <? p * q0 then Some (n, p, q) else acc
    end) names None.

Definition fuzzymatchSpec (name : string) (names : list string) : option string :=
  match bestMatch name names with
  | Some (n, p, q) => if 7 * q <? 10 * p then Some n else None
  | None => None
  end.

End Refs.

(** ** The warnings for unused members of the default export *)

Module Warnings.

(** What [this.warn] passes on to [this.stats.warn]: the code, the message
    and [pos.start]. *)
Record Warning := mkWarning {
  warnCode : string;
  warnMessage : string;
  warnPos : nat
}.

(** The properties of the default export's object: each key name with the
    properties of its object value, a name and a start. *)
Definition DefaultExport := list (string * list (string * nat)).

(** The object [categories], in the order of [Object.keys]. *)
Definition categories : list (string * string) :=
  [("components", "component"); ("helpers", "helper"); ("events", "event definition");
   ("transitions", "transition"); ("actions", "actions")].

(** [category.slice(0, -1)] *)
Definition sliceLast (s : string) : string :=
  String.substring 0 (String.length s - 1) s.

(** The warnings issued by the constructor, in order; [used category] is
    [this.used[category]]. *)
Definition unusedWarnings (defaultExport : option DefaultExport)
    (used : string -> gset string) : list Warning :=
  match defaultExport with
  | None => []
  | Some props =>
      flat_map (fun '(category, label) =>
        match List.find (fun p => bool_decide (fst p = category)) props with
        | Some (_, members) =>
            flat_map (fun '(name, start) =>
              if bool_decide (name ∈ used category) then []
              else [mkWarning ("unused-" +:+ sliceLast category)
                      ("The '" +:+ name +:+ "' " +:+ label +:+ " is unused") start])
              members
        | None => []
        end) categories
  end.

End Warnings.


(** ** More of [Component.ts]: the span markers of [walkJs], the
    indentation helpers and [this.file] *)

Module Source.
Import Emit Sigils.

(** [/\s/] on one UTF-16 code unit. *)
Definition isJsSpace (c : N) : bool :=
  (c =? 9)%N || (c =? 10)%N || (c =? 11)%N || (c =? 12)%N || (c =? 13)%N ||
  (c =? 32)%N || (c =? 160)%N || (c =? 5760)%N ||
  ((8192 <=? c)%N && (c <=? 8202)%N) ||
  (c =? 8232)%N || (c =? 8233)%N || (c =? 8239)%N || (c =? 8287)%N ||
  (c =? 12288)%N || (c =? 65279)%N.

Definition newline : N := 10.
Definition tab : N := 9.

(** [/\s/.test(source[i])]; out of range [source[i]] is [undefined], whose
    text ["undefined"] holds no space. *)
Definition spaceAt (source : text) (i : nat) : bool :=
  match source !! i with
  | Some c => isJsSpace c
  | None => false
  end.

(** [while (/\s/.test(source[a])) a += 1;] The loop stops at the latest at
    [source.length], so [length source] rounds of [fuel] are enough. *)
Fixpoint skipForward (fuel : nat) (source : text) (a : nat) : nat :=
  match fuel with
  | O => a
  | S f => if spaceAt source a then skipForward f source (S a) else a
  end.

(** [while (/\s/.test(source[b - 1])) b -= 1;] ([source[-1]] is [undefined]). *)
Fixpoint skipBackward (b : nat) (source : text) : nat :=
  match b with
  | O => O
  | S b' => if spaceAt source b' then skipBackward b' source else b
  end.

(** [`[✂${a}-${b}✂]`] *)
Definition marker (a b : nat) : text :=
  spanMarker (units (pretty a)) (units (pretty b)).

(** The last lines of [walkJs] (from [let a = js.content.start]):
    [this.javascript] from [js.content.start], [js.content.end] and the
    range of [this.defaultExport]. *)
Definition walkJsJavascript (source : text) (contentStart contentEnd : nat)
    (defaultExport : option (nat * nat)) : text * text :=
  let a := skipForward (length source) source contentStart in
  let b := skipBackward contentEnd source in
  match defaultExport with
  | Some (ds, de) =>
      (if a =? ds then [] else marker a ds, if b =? de then [] else marker de b)
  | None => (if a =? b then [] else marker a b, [])
  end.

(** The statements of [js.content.body], as far as [walkJs] looks at them:
    their type and range; an [export default] carries the properties of its
    object (see [Warnings.DefaultExport]). *)
Inductive StmtKind :=
  | ExportDefaultDeclaration (props : Warnings.DefaultExport)
  | ImportDeclaration
  | OtherStatement.

Record Stmt := mkStmt {
  stmtKind : StmtKind;
  stmtStart : nat;
  stmtEnd : nat
}.

Definition isExportDefault (st : Stmt) : bool :=
  match stmtKind st with ExportDefaultDeclaration _ => true | _ => false end.

Definition isImport (st : Stmt) : bool :=
  match stmtKind st with ImportDeclaration => true | _ => false end.

(** [js.content]: the range of the script's content and its statements. *)
Record Script := mkScript {
  contentStart : nat;
  contentEnd : nat;
  body : list Stmt
}.

(** [this.defaultExport]: declared by [Component] but assigned nowhere, so
    it stays [undefined]. *)
Definition thisDefaultExport : option Stmt := None.

Definition exportRange (n : option Stmt) : option (nat * nat) :=
  option_map (fun st => (stmtStart st, stmtEnd st)) n.

(** [this.defaultExport.declaration.properties] *)
Definition exportProps (n : option Stmt) : option Warnings.DefaultExport :=
  match n with
  | Some st => match stmtKind st with ExportDefaultDeclaration p => Some p | _ => None end
  | None => None
  end.

(** How [walkJs] ends: at once without a script ([this.javascript] stays
    undefined); with a [TypeError] when [js.content.body[0]] is undefined
    (a script without statements); with [this.error] at the first default
    export; or normally, with the hoisted [imports] and [this.javascript]. *)
Inductive WalkJsResult :=
  | WalkNoScript
  | WalkTypeError
  | WalkError (d : Refs.Diagnostic)
  | WalkDone (imports : list Stmt) (javascript : text * text).

(** [walkJs()]. The scope analysis ([createScopes], filling [userVars]) and
    the removal of the imports from [this.code] ([removeNode]) are left out:
    they decide none of the results above. *)
Definition walkJs (source : text) (js : option Script) : WalkJsResult :=
  match js with
  | None => WalkNoScript
  | Some s =>
      match body s with
      | [] => WalkTypeError
      | _ :: _ =>
          match List.find isExportDefault (body s) with
          | Some st =>
              WalkError (Refs.mkDiag "default-export"
                           "A component cannot have a default export"
                           (stmtStart st) (stmtEnd st))
          | None =>
              WalkDone (List.filter isImport (body s))
                (walkJsJavascript source (contentStart s) (contentEnd s)
                   (exportRange thisDefaultExport))
          end
      end
  end.

(** The [while] loop of [getIndentationLevel]:
    [while (a > 0 && str[a - 1] !== '\n') a -= 1;] *)
Fixpoint lineStart (str : text) (a : nat) : nat :=
  match a with
  | O => O
  | S a' => if bool_decide (str !! a' = Some newline) then a else lineStart str a'
  end.

(** [str.slice(a, b)] *)
Definition slice (str : text) (a b : nat) : text := take (b - a) (drop a str).

(** [getIndentationLevel(str, b)]: [/^\s*/.exec(str.slice(a, b))[0]]. *)
Definition getIndentationLevel (str : text) (b : nat) : text :=
  fst (spanWhile isJsSpace (slice str (lineStart str b) b)).

(** [str.split('\n')] *)
Fixpoint splitLines (s acc : text) : list text :=
  match s with
  | [] => [rev acc]
  | x :: t => if (x =? newline)%N then rev acc :: splitLines t [] else splitLines t (x :: acc)
  end.

(** [increaseIndentation(code, start, end, ...)]: the offsets [c] at which it
    calls [code.prependRight(c, '\t\t\t')], in call order. *)
Definition increaseIndentation (code : MagicString) (start end_ : nat) : list nat :=
  let str := slice (original code) start end_ in
  snd (fold_left (fun '(c, calls) line =>
         (c + length line + 1, if bool_decide (line = []) then calls else calls ++ [c]))
       (splitLines str []) (start, [])).

(** [^] in multiline mode: the start of the text, or right after a line
    terminator. *)
Definition isLineTerminator (c : N) : bool :=
  (c =? 10)%N || (c =? 13)%N || (c =? 8232)%N || (c =? 8233)%N.

Definition lineStartAt (str : text) (i : nat) : bool :=
  match i with
  | O => true
  | S i' => match str !! i' with Some c => isLineTerminator c | None => false end
  end.

(** The loop of [detectIndentation] over the matches of [/^[\t\s]{1,4}/gm],
    from [lastIndex = i]. Each round moves [i] forward, so
    [S (length str)] rounds of [fuel] are enough. *)
Fixpoint detectGo (fuel : nat) (str : text) (i : nat) : text :=
  match fuel with
  | O => units "    "
  | S f =>
      if length str <=? i then units "    "
      else if lineStartAt str i && spaceAt str i then
        let m := take 4 (fst (spanWhile isJsSpace (drop i str))) in
        if bool_decide (head m = Some tab) then [tab]
        else if length m =? 2 then units "  "
        else detectGo f str (i + length m)
      else detectGo f str (S i)
  end.

(** [detectIndentation(str)] *)
Definition detectIndentation (str : text) : text := detectGo (S (length str)) str 0.

(** [s.replace(pat, '')] for a string [pat]: the first occurrence removed. *)
Fixpoint removeFirst (pat s : string) {struct s} : string :=
  if String.prefix pat s then
    String.substring (String.length pat) (String.length s - String.length pat) s
  else
    match s with
    | EmptyString => EmptyString
    | String c s' => String c (removeFirst pat s')
    end.

(** [s.replace(/^[\/\\]/, '')]: one leading slash or backslash
    (code units 47 and 92) removed. *)
Definition stripLeadingSep (s : string) : string :=
  match s with
  | String c s' =>
      if (Ascii.N_of_ascii c =? 47)%N || (Ascii.N_of_ascii c =? 92)%N then s' else s
  | EmptyString => EmptyString
  end.

(** [this.file] in the constructor; [filename] is [options.filename]
    ([None] for [undefined]) and [cwd] is [process.cwd()] ([None] when
    [process] is undefined). *)
Definition componentFile (filename cwd : option string) : option string :=
  match filename with
  | None => None
  | Some "" => Some ""
  | Some f =>
      Some (match cwd with
            | Some d => stripLeadingSep (removeFirst d f)
            | None => f
            end)
  end.

End Source.

(** ** The constructor, as far as the unused-member warnings go *)

Module Constructor.
Import Emit Warnings Source.

Inductive CtorResult :=
  | CtorTypeError
  | CtorError (d : Refs.Diagnostic)
  | CtorWarnings (ws : list Warning).

(** [this.walkJs()], then the block [if (this.defaultExport) { ... }] of the
    constructor; [used] is [this.used]. The steps in between (the custom
    element's tag, [Fragment], the stylesheet) are taken to pass. *)
Definition constructorWarnings (source : text) (js : option Script)
    (used : string -> gset string) : CtorResult :=
  match walkJs source js with
  | WalkTypeError => CtorTypeError
  | WalkError d => CtorError d
  | _ => CtorWarnings (unusedWarnings (exportProps thisDefaultExport) used)
  end.

End Constructor.

(** ** Facts about the alias registry *)

Module RegistryFacts.
Import Registry.

Lemma string_length_app (s1 s2 : string) :
  String.length (s1 +:+ s2) = String.length s1 + String.length s2.
Proof. induction s1; simpl; auto. Qed.

Lemma cand_inj name i j : cand name i = cand name j -> i = j.
Proof.
  destruct i, j; simpl; unfold suffixed; intros H; auto.
  - apply (f_equal String.length) in H.
    rewrite !string_length_app in H. simpl in H. lia.
  - apply (f_equal String.length) in H.
    rewrite !string_length_app in H. simpl in H. lia.
  - apply (inj (String.append name)) in H. cbn [String.append] in H.
    injection H as H. apply pretty_nat_inj in H. done.
Qed.

Section Search.

Variable blocked : string -> bool.
Variable X : gset string.
Hypothesis Hblocked : forall a, blocked a = true <-> a ∈ X.
Variable name : string.

(** Pigeonhole: [k] consecutive candidates inside [X] need [k <= size X]. *)
Lemma cands_in_size k :
  (forall j, j < k -> cand name j ∈ X) -> k <= size X.
Proof.
  intros Hin.
  assert (Hsub : list_to_set (C:=gset string) (cand name <$> seq 0 k) ⊆ X).
  { intros a. rewrite elem_of_list_to_set, list_elem_of_fmap.
    intros [j [-> Hj]]. apply elem_of_seq in Hj. apply Hin. lia. }
  apply subseteq_size in Hsub. rewrite size_list_to_set in Hsub.
  - rewrite length_fmap, length_seq in Hsub. done.
  - apply NoDup_fmap_2_strong; [|apply NoDup_seq].
    intros x y _ _. apply cand_inj.
Qed.

Lemma search_not_blocked fuel k :
  (forall j, j < k -> cand name j ∈ X) -> size X <= fuel + k ->
  search blocked name (cand name k) (S k) fuel ∉ X.
Proof.
  revert k. induction fuel as [|f IH]; intros k Hlt Hsz; simpl.
  - destruct (blocked (cand name k)) eqn:E.
    + exfalso. apply Hblocked in E.
      assert (S k <= size X); [|lia].
      apply cands_in_size. intros j Hj.
      destruct (decide (j = k)) as [->|]; [done|]. apply Hlt. lia.
    + rewrite <- Hblocked. congruence.
  - destruct (blocked (cand name k)) eqn:E.
    + apply Hblocked in E.
      change (suffixed name (S k)) with (cand name (S k)).
      apply IH; [|lia]. intros j Hj.
      destruct (decide (j = k)) as [->|]; [done|]. apply Hlt. lia.
    + rewrite <- Hblocked. congruence.
Qed.

Lemma search_is_cand fuel k :
  exists j, search blocked name (cand name k) (S k) fuel = cand name j.
Proof.
  revert k. induction fuel as [|f IH]; intros k; simpl.
  - destruct (blocked _); eauto.
  - destruct (blocked _); eauto.
    change (suffixed name (S k)) with (cand name (S k)). apply IH.
Qed.

Lemma search_least_from fuel i k :
  i <= k -> k - i <= fuel ->
  (forall j, j < k -> cand name j ∈ X) -> cand name k ∉ X ->
  search blocked name (cand name i) (S i) fuel = cand name k.
Proof.
  revert i. induction fuel as [|f IH]; intros i Hik Hf Hin Hout; simpl.
  - assert (i = k) as -> by lia.
    destruct (blocked (cand name k)) eqn:E; [apply Hblocked in E; done|done].
  - destruct (decide (i = k)) as [->|Hne].
    + destruct (blocked (cand name k)) eqn:E; [apply Hblocked in E; done|done].
    + destruct (blocked (cand name i)) eqn:E.
      * change (suffixed name (S i)) with (cand name (S i)). apply IH; auto; lia.
      * exfalso. assert (cand name i ∈ X) as Hi by (apply Hin; lia).
        apply Hblocked in Hi. congruence.
Qed.

(** The loop stops at the first candidate outside [X]. *)
Lemma search_least k :
  (forall j, j < k -> cand name j ∈ X) -> cand name k ∉ X ->
  search blocked name name 1 (size X) = cand name k.
Proof.
  intros Hin Hout. change name with (cand name 0) at 2.
  apply search_least_from; auto; [lia|].
  pose proof (cands_in_size k Hin). lia.
Qed.

End Search.

Section Facts.

Variable reservedNames : gset string.
Variable test : bool.

Lemma blockedGlobal_spec c a :
  blockedGlobal reservedNames c a = true <->
  a ∈ reservedNames ∪ userVars c ∪ usedNames c.
Proof.
  unfold blockedGlobal. rewrite !orb_true_iff, !bool_decide_eq_true. set_solver.
Qed.

Lemma getUniqueName_fresh name c :
  fst (getUniqueName reservedNames test name c)
    ∉ reservedNames ∪ userVars c ∪ usedNames c.
Proof.
  unfold getUniqueName; simpl.
  change (testName test name) with (cand (testName test name) 0) at 2.
  apply search_not_blocked; [apply blockedGlobal_spec| |]; [intros; lia|lia].
Qed.

Lemma getUniqueName_is_cand name c :
  exists k, fst (getUniqueName reservedNames test name c) = cand (testName test name) k.
Proof.
  unfold getUniqueName; simpl.
  change (testName test name) with (cand (testName test name) 0) at 2.
  apply search_is_cand.
Qed.

Lemma getUniqueName_least name c k :
  (forall j, j < k -> cand (testName test name) j ∈ reservedNames ∪ userVars c ∪ usedNames c) ->
  cand (testName test name) k ∉ reservedNames ∪ userVars c ∪ usedNames c ->
  fst (getUniqueName reservedNames test name c) = cand (testName test name) k.
Proof.
  intros Hin Hout. unfold getUniqueName; cbn [fst].
  apply search_least; [apply blockedGlobal_spec|done|done].
Qed.

Lemma getUniqueName_state name c :
  snd (getUniqueName reservedNames test name c) =
  mkComponent (userVars c) (aliases c)
    ({[fst (getUniqueName reservedNames test name c)]} ∪ usedNames c).
Proof. reflexivity. Qed.

Lemma makerCall_fresh c l name :
  fst (makerCall test c l name) ∉ usedNames c ∪ l.
Proof.
  unfold makerCall; simpl.
  change (testName test name) with (cand (testName test name) 0) at 2.
  apply search_not_blocked; [| |]; [|intros; lia|lia].
  intros a. rewrite orb_true_iff, !bool_decide_eq_true. set_solver.
Qed.

Lemma alias_some n c a :
  aliases c !! n = Some a -> alias reservedNames test n c = (a, c).
Proof. intros E. unfold alias. by rewrite E. Qed.

Lemma alias_none n c :
  aliases c !! n = None ->
  alias reservedNames test n c =
    (fst (getUniqueName reservedNames test n c),
     mkComponent (userVars c)
       (<[n := fst (getUniqueName reservedNames test n c)]> (aliases c))
       ({[fst (getUniqueName reservedNames test n c)]} ∪ usedNames c)).
Proof. intros E. unfold alias. by rewrite E. Qed.

Lemma lookup_snoc_Some {A} (l : list A) x i y :
  (l ++ [x]) !! i = Some y <-> l !! i = Some y \/ (i = length l /\ y = x).
Proof.
  rewrite lookup_app_Some, list_lookup_singleton_Some.
  split.
  - intros [H|[H1 [H2 H3]]]; [by left|right; split; [lia|done]].
  - intros [H|[-> ->]]; [by left|right; split; [lia|split; [lia|done]]].
Qed.

Lemma HistInv_fresh U c hr ho r a (c1 : Component) :
  HistInv reservedNames U c hr ho ->
  a ∉ reservedNames ∪ U ∪ usedNames c ->
  userVars c1 = userVars c -> usedNames c1 = {[a]} ∪ usedNames c ->
  (forall n b, aliases c1 !! n = Some b ->
     aliases c !! n = Some b \/ (b = a /\ r = ReqAlias n /\ aliases c !! n = None)) ->
  HistInv reservedNames U c1 (hr ++ [r]) (ho ++ [a]).
Proof.
  intros (HU & Hlen & Hres & Hval & Hinj & Hho & Hhist & Hpair) Ha Huv Hused Hal.
  repeat split.
  - congruence.
  - rewrite !length_app; simpl; lia.
  - rewrite Hused. intros b Hb. apply elem_of_union in Hb as [Hb|Hb].
    + apply elem_of_singleton in Hb as ->. set_solver.
    + by apply Hres.
  - intros n b Hb. rewrite Hused. apply Hal in Hb as [Hb|(-> & _ & _)].
    + apply elem_of_union_r. by eapply Hval.
    + set_solver.
  - intros n1 n2 b H1 H2.
    apply Hal in H1 as [H1|(-> & ? & ?)]; apply Hal in H2 as [H2|(? & ? & ?)].
    + by eapply Hinj.
    + subst. exfalso. apply Ha. apply elem_of_union_r. by eapply Hval.
    + exfalso. apply Ha. apply elem_of_union_r. by eapply Hval.
    + congruence.
  - intros b Hb. rewrite Hused. apply elem_of_app in Hb as [Hb|Hb].
    + apply elem_of_union_r. by apply Hho.
    + set_solver.
  - intros i n b Hi Hn. apply lookup_snoc_Some in Hi as [Hi|[-> ->]].
    + apply Hal in Hn as [Hn|(-> & _ & _)].
      * apply lookup_app_l_Some. by eapply Hhist.
      * exfalso. apply Ha. apply elem_of_union_r. apply Hho.
        by eapply list_elem_of_lookup_2.
    + apply Hal in Hn as [Hn|(_ & -> & _)].
      * exfalso. apply Ha. apply elem_of_union_r. by eapply Hval.
      * apply lookup_snoc_Some. right. split; [lia|done].
  - intros i j b Hij Hi Hj.
    apply lookup_snoc_Some in Hi as [Hi|[-> ?]];
      apply lookup_snoc_Some in Hj as [Hj|[-> ?]]; subst.
    + destruct (Hpair i j b Hij Hi Hj) as (n & H1 & H2).
      exists n. split; by apply lookup_app_l_Some.
    + exfalso. apply Ha. apply elem_of_union_r. apply Hho.
      by eapply list_elem_of_lookup_2.
    + apply lookup_lt_Some in Hj. lia.
    + lia.
Qed.

Lemma HistInv_serve U c hr ho r :
  HistInv reservedNames U c hr ho ->
  HistInv reservedNames U (snd (serve reservedNames test r c)) (hr ++ [r])
    (ho ++ [fst (serve reservedNames test r c)]).
Proof.
  intros HI. pose proof HI as (HU & Hlen & Hres & Hval & Hinj & Hho & Hhist & Hpair).
  destruct r as [n|n]; cbn [serve].
  - destruct (aliases c !! n) as [a|] eqn:E.
    + rewrite (alias_some n c a E). cbn [fst snd].
      repeat split; auto.
      * rewrite !length_app; simpl; lia.
      * intros b Hb. apply elem_of_app in Hb as [Hb|Hb]; [by apply Hho|].
        apply list_elem_of_singleton in Hb as ->. by eapply Hval.
      * intros i m b Hi Hm. apply lookup_snoc_Some in Hi as [Hi|[-> ->]].
        -- apply lookup_app_l_Some. by eapply Hhist.
        -- assert (m = n) as -> by (eapply Hinj; eauto).
           apply lookup_snoc_Some. right. split; [lia|done].
      * intros i j b Hij Hi Hj.
        apply lookup_snoc_Some in Hi as [Hi|[-> ?]];
          apply lookup_snoc_Some in Hj as [Hj|[-> ?]]; subst.
        -- destruct (Hpair i j b Hij Hi Hj) as (m & H1 & H2).
           exists m. split; by apply lookup_app_l_Some.
        -- exists n. split.
           ++ apply lookup_app_l_Some. by eapply Hhist.
           ++ apply lookup_snoc_Some. right. split; [lia|done].
        -- apply lookup_lt_Some in Hj. lia.
        -- lia.
    + pose proof (getUniqueName_fresh n c) as Hf. rewrite HU in Hf.
      rewrite (alias_none n c E). cbn [fst snd userVars aliases usedNames].
      eapply HistInv_fresh; [exact HI|exact Hf|reflexivity|reflexivity|].
      intros m b Hm. cbn [aliases] in Hm.
      apply lookup_insert_Some in Hm as [[-> ->]|[_ Hm]].
      * right. done.
      * by left.
  - pose proof (getUniqueName_fresh n c) as Hf.
    rewrite HU in Hf. eapply HistInv_fresh; [exact HI|exact Hf|reflexivity| |].
    + rewrite getUniqueName_state. done.
    + intros m b Hm. left. rewrite getUniqueName_state in Hm. done.
Qed.

Lemma HistInv_serveAll U rs : forall c hr ho,
  HistInv reservedNames U c hr ho ->
  HistInv reservedNames U (snd (serveAll reservedNames test rs c)) (hr ++ rs)
    (ho ++ fst (serveAll reservedNames test rs c)).
Proof.
  induction rs as [|r rs IH]; intros c hr ho HI; simpl.
  - by rewrite !app_nil_r.
  - pose proof (HistInv_serve U c hr ho r HI) as H1.
    destruct (serve reservedNames test r c) as [a c1] eqn:E.
    pose proof (IH c1 _ _ H1) as H2.
    destruct (serveAll reservedNames test rs c1) as [out c2]. simpl in *.
    by rewrite <- !app_assoc in H2.
Qed.

End Facts.

End RegistryFacts.

(** ** Frame facts of the world of closures *)

Module WorldFacts.
Import Registry RegistryFacts.

Section WorldFacts.

Variable reservedNames : gset string.
Variable test : bool.

Lemma alias_userVars n c :
  userVars (snd (alias reservedNames test n c)) = userVars c.
Proof.
  destruct (aliases c !! n) as [a|] eqn:E.
  - by rewrite (alias_some reservedNames test n c a E).
  - by rewrite (alias_none reservedNames test n c E).
Qed.

Lemma step_userVars o w :
  userVars (comp (snd (step reservedNames test o w))) = userVars (comp w).
Proof.
  destruct o as [n|n| |k n]; cbn [step].
  - rewrite <- (alias_userVars n (comp w)).
    by destruct (alias reservedNames test n (comp w)).
  - by rewrite (surjective_pairing (getUniqueName _ _ _ _)), getUniqueName_state.
  - done.
  - destruct (makers w !! k); [|done].
    by destruct (makerCall test (comp w) g n).
Qed.

Lemma run_userVars os : forall w,
  userVars (comp (run reservedNames test os w)) = userVars (comp w).
Proof.
  induction os as [|o os IH]; intros w; simpl; [done|].
  by rewrite IH, step_userVars.
Qed.

Lemma step_seeded o w :
  makersSeeded reservedNames w -> makersSeeded reservedNames (snd (step reservedNames test o w)).
Proof.
  intros Hs k' l' Hk. rewrite step_userVars.
  destruct o as [n|n| |k n]; cbn [step] in Hk |- *.
  - destruct (alias reservedNames test n (comp w)). by eapply Hs.
  - destruct (getUniqueName reservedNames test n (comp w)). by eapply Hs.
  - cbn [snd makers] in Hk. apply lookup_snoc_Some in Hk as [Hk|[_ ->]].
    + by eapply Hs.
    + unfold getUniqueNameMaker. done.
  - destruct (makers w !! k) as [l|] eqn:E; [|by eapply Hs].
    destruct (makerCall test (comp w) l n) as [a l2] eqn:M.
    cbn [snd makers] in Hk.
    apply list_lookup_insert_Some in Hk as [(-> & <- & _)|(_ & Hk)].
    + unfold makerCall in M. injection M as _ <-.
      pose proof (Hs _ l E). set_solver.
    + by eapply Hs.
Qed.

Lemma run_seeded os : forall w,
  makersSeeded reservedNames w -> makersSeeded reservedNames (run reservedNames test os w).
Proof.
  induction os as [|o os IH]; intros w Hs; simpl; [done|].
  apply IH, step_seeded, Hs.
Qed.

Lemma step_keeps_alias o w x a :
  aliases (comp w) !! x = Some a ->
  aliases (comp (snd (step reservedNames test o w))) !! x = Some a.
Proof.
  intros Hx. destruct o as [n|n| |k n]; cbn [step].
  - destruct (aliases (comp w) !! n) as [b|] eqn:E.
    + by rewrite (alias_some reservedNames test n (comp w) b E).
    + rewrite (alias_none reservedNames test n (comp w) E). cbn [snd comp aliases].
      rewrite lookup_insert_ne; [done|]. intros ->. congruence.
  - by rewrite (surjective_pairing (getUniqueName _ _ _ _)), getUniqueName_state.
  - done.
  - destruct (makers w !! k); [|done].
    by destruct (makerCall test (comp w) g n).
Qed.

Lemma run_keeps_alias os : forall w x a,
  aliases (comp w) !! x = Some a ->
  aliases (comp (run reservedNames test os w)) !! x = Some a.
Proof.
  induction os as [|o os IH]; intros w x a Hx; simpl; [done|].
  apply IH, step_keeps_alias, Hx.
Qed.

End WorldFacts.

End WorldFacts.

(** ** Claims on the alias registry *)

Module RegistryClaims.
Import Registry RegistryFacts WorldFacts.

(** C1 (counterexample): asking [alias] twice for the same logical name
    answers the same emitted name twice, so the answers of a sequence of
    requests need not be pairwise distinct. *)
Lemma alias_requests_repeat :
  fst (serveAll ∅ false [ReqAlias "x"; ReqAlias "x"] (afterWalkJs ∅)) = ["x"; "x"] /\
  ~ NoDup (fst (serveAll ∅ false [ReqAlias "x"; ReqAlias "x"] (afterWalkJs ∅))).
Proof.
  assert (E : fst (serveAll ∅ false [ReqAlias "x"; ReqAlias "x"] (afterWalkJs ∅))
              = ["x"; "x"]) by reflexivity.
  split; [exact E|]. rewrite E. intros H. apply NoDup_cons in H as [H _].
  apply H. left.
Qed.

(** C1 (amended): in one compilation (the state right after [walkJs], with
    reserved names [R] and user names [U]), every name answered by a
    sequence of [alias]/[getUniqueName] requests lies outside [R ∪ U], and
    two requests get the same name only when both are [alias] requests for
    the same logical name. *)
Theorem alias_uniqueness (R U : gset string) (test : bool) (rs : list Request) :
  let out := fst (serveAll R test rs (afterWalkJs U)) in
  (forall a, a ∈ out -> a ∉ R ∪ U) /\
  (forall i j a, i < j -> out !! i = Some a -> out !! j = Some a ->
     exists n, rs !! i = Some (ReqAlias n) /\ rs !! j = Some (ReqAlias n)).
Proof.
  assert (H0 : HistInv R U (afterWalkJs U) [] []).
  { repeat split; simpl; intros *; try done; set_solver. }
  pose proof (HistInv_serveAll R test U rs _ _ _ H0)
    as (_ & _ & Hres & _ & _ & Hho & _ & Hpair).
  simpl in *. split.
  - intros a Ha. by apply Hres, Hho.
  - exact Hpair.
Qed.

(** C3: [alias] is memoised: once [alias(x)] has answered [a], every later
    call [alias(x)] answers [a] again, whatever requests (aliases, unique
    names, child allocators and their calls) were served in between. *)
Theorem alias_memoized (R : gset string) (test : bool) (w w1 : World)
    (x a : string) (os : list Op) :
  step R test (OpAlias x) w = (Some a, w1) ->
  fst (step R test (OpAlias x) (run R test os w1)) = Some a.
Proof.
  intros H.
  assert (Hw1 : aliases (comp w1) !! x = Some a).
  { cbn [step] in H. destruct (aliases (comp w) !! x) as [b|] eqn:E.
    - rewrite (alias_some R test x (comp w) b E) in H. injection H as -> <-. done.
    - rewrite (alias_none R test x (comp w) E) in H. injection H as <- <-.
      cbn [comp aliases]. apply lookup_insert_eq. }
  apply (run_keeps_alias R test os) in Hw1.
  cbn [step]. rewrite (alias_some R test x _ a Hw1). reflexivity.
Qed.

Lemma alias_memoized_witness :
  fst (step ∅ false (OpAlias "x")
         (run ∅ false [OpGetUniqueName "x"; OpGetUniqueNameMaker; OpMakerCall 0 "x"]
            (snd (step ∅ false (OpAlias "x") (mkWorld (afterWalkJs ∅) []))))) = Some "x".
Proof.
  apply (alias_memoized ∅ false (mkWorld (afterWalkJs ∅) []) _ "x" "x").
  reflexivity.
Defined.

(** C4 (counterexample): with [get] reserved and a user variable named
    [get_1], the first allocation for [get] is [get_2], not [get_1]. *)
Lemma get_collision_user_var :
  fst (alias {["get"]} false "get" (afterWalkJs {["get_1"]})) = "get_2" /\
  fst (alias {["get"]} false "get" (afterWalkJs {["get_1"]})) <> "get_1".
Proof. split; [reflexivity|]. vm_compute. discriminate. Qed.

(** C4 (amended): test-suffix mode off, [get] reserved and no alias for
    [get] yet: [alias("get")] answers [get_k] for the least [k >= 1] such
    that [get_k] is neither reserved, nor a user name, nor used; a following
    [getUniqueName("get")] then answers [get_m] for the least [m > k] with
    [get_m] free in the same sense ([get_k] is now used). In particular,
    when [get_1] and [get_2] are free, the answers are [get_1] and [get_2]. *)
Theorem get_collision_suffixes (R : gset string) (c : Component) :
  "get" ∈ R -> aliases c !! "get" = None ->
  (forall k, 1 <= k ->
     (forall j, 1 <= j < k -> suffixed "get" j ∈ R ∪ userVars c ∪ usedNames c) ->
     suffixed "get" k ∉ R ∪ userVars c ∪ usedNames c ->
     fst (alias R false "get" c) = suffixed "get" k /\
     (forall m, k < m ->
        (forall j, k < j < m -> suffixed "get" j ∈ R ∪ userVars c ∪ usedNames c) ->
        suffixed "get" m ∉ R ∪ userVars c ∪ usedNames c ->
        fst (getUniqueName R false "get" (snd (alias R false "get" c))) = suffixed "get" m)) /\
  ("get_1" ∉ R ∪ userVars c ∪ usedNames c ->
   "get_2" ∉ R ∪ userVars c ∪ usedNames c ->
   fst (alias R false "get" c) = "get_1" /\
   fst (getUniqueName R false "get" (snd (alias R false "get" c))) = "get_2").
Proof.
  intros Hget Hnone.
  assert (Hgen : forall k, 1 <= k ->
     (forall j, 1 <= j < k -> suffixed "get" j ∈ R ∪ userVars c ∪ usedNames c) ->
     suffixed "get" k ∉ R ∪ userVars c ∪ usedNames c ->
     fst (alias R false "get" c) = suffixed "get" k /\
     (forall m, k < m ->
        (forall j, k < j < m -> suffixed "get" j ∈ R ∪ userVars c ∪ usedNames c) ->
        suffixed "get" m ∉ R ∪ userVars c ∪ usedNames c ->
        fst (getUniqueName R false "get" (snd (alias R false "get" c))) = suffixed "get" m)).
  { intros k Hk Hbelow Hfree.
    assert (Hfirst : fst (getUniqueName R false "get" c) = suffixed "get" k).
    { destruct k as [|k']; [lia|].
      apply (getUniqueName_least R false "get" c (S k')); [|exact Hfree].
      intros j Hj. destruct j as [|j']; [set_solver|]. apply Hbelow. lia. }
    rewrite (alias_none R false "get" c Hnone). cbn [fst snd]. rewrite Hfirst.
    split; [done|].
    intros m Hkm Hmid Hmfree. destruct m as [|m']; [lia|].
    apply (getUniqueName_least R false "get" _ (S m')); cbn [userVars usedNames].
    - intros j Hj. destruct j as [|j']; [set_solver|].
      destruct (decide (S j' = k)) as [<-|Hne].
      + set_solver.
      + destruct (decide (S j' < k)).
        * pose proof (Hbelow (S j') ltac:(lia)). set_solver.
        * pose proof (Hmid (S j') ltac:(lia)). set_solver.
    - change (cand (testName false "get") (S m')) with (suffixed "get" (S m')).
      assert (suffixed "get" (S m') <> suffixed "get" k).
      { destruct k as [|k']; [lia|]. intros E.
        apply (cand_inj "get" (S m') (S k')) in E. lia. }
      set_solver. }
  split; [exact Hgen|].
  intros H1 H2.
  destruct (Hgen 1) as [Ha Hu]; [lia| |exact H1|].
  - intros j Hj. lia.
  - split; [exact Ha|]. apply (Hu 2); [lia| |exact H2]. intros j Hj. lia.
Qed.

Lemma get_collision_suffixes_witness :
  fst (alias {["get"; "get_1"]} false "get" (afterWalkJs ∅)) = "get_2" /\
  fst (getUniqueName {["get"; "get_1"]} false "get"
         (snd (alias {["get"; "get_1"]} false "get" (afterWalkJs ∅)))) = "get_3".
Proof.
  destruct (get_collision_suffixes {["get"; "get_1"]} (afterWalkJs ∅)) as [Hgen _].
  - refine (bool_decide_unpack _ _). vm_compute. exact I.
  - reflexivity.
  - destruct (Hgen 2) as [Ha Hu].
    + lia.
    + intros j Hj. assert (j = 1) as -> by lia.
      refine (bool_decide_unpack _ _). vm_compute. exact I.
    + refine (bool_decide_unpack _ _). vm_compute. exact I.
    + split; [exact Ha|]. apply (Hu 3).
      * lia.
      * intros j Hj. lia.
      * refine (bool_decide_unpack _ _). vm_compute. exact I.
Defined.

(** C8: a call of a closure returned by [getUniqueNameMaker] answers a
    name outside the reserved names, the user names and the component's
    [usedNames] at the time of the call, and leaves the component itself
    unchanged (only the closure's own [localUsedNames] grows). *)
Theorem child_allocator_frame (R U : gset string) (test : bool) (os : list Op)
    (k : nat) (name : string) (l : gset string) :
  let w := run R test os (mkWorld (afterWalkJs U) []) in
  makers w !! k = Some l ->
  exists a,
    step R test (OpMakerCall k name) w =
      (Some a, mkWorld (comp w) (<[k := {[a]} ∪ l]> (makers w))) /\
    a ∉ R ∪ U ∪ usedNames (comp w).
Proof.
  intros w Hk.
  assert (Hs : makersSeeded R w).
  { apply run_seeded. intros k' l' H. cbn [makers] in H. by rewrite lookup_nil in H. }
  assert (HU : userVars (comp w) = U) by (unfold w; by rewrite run_userVars).
  pose proof (Hs k l Hk) as Hl. rewrite HU in Hl.
  pose proof (makerCall_fresh test (comp w) l name) as Hf.
  exists (fst (makerCall test (comp w) l name)). split.
  - cbn [step]. rewrite Hk. reflexivity.
  - set_solver.
Qed.

Lemma child_allocator_frame_witness :
  let w := run ∅ false [OpAlias "t"; OpGetUniqueNameMaker] (mkWorld (afterWalkJs {["u"]}) []) in
  exists a,
    step ∅ false (OpMakerCall 0 "t") w =
      (Some a, mkWorld (comp w) (<[0 := {[a]} ∪ {["u"]}]> (makers w))) /\
    a ∉ ∅ ∪ {["u"]} ∪ usedNames (comp w).
Proof.
  intros w. apply (child_allocator_frame ∅ {["u"]} false _ 0 "t" {["u"]}).
  vm_compute. reflexivity.
Defined.

(** C10 (counterexample): in test-suffix mode a colliding component name is
    emitted as [get$], which is no numerically suffixed variant of [get]. *)
Lemma component_name_test_mode :
  componentName {["get"]} true "get" ∅ = "get$" /\
  forall k, componentName {["get"]} true "get" ∅ <> suffixed "get" k.
Proof.
  assert (E : componentName {["get"]} true "get" ∅ = "get$") by reflexivity.
  split; [exact E|]. intros k. rewrite E. unfold suffixed.
  cbn [String.append]. intros H. inversion H.
Qed.

(** C10 (amended): the class name is [alias(name)] taken right after
    [walkJs]; it is never a reserved name nor a user name (declared, global
    or imported); with test-suffix mode off it is the requested name when
    that is free and [name_k] for some [k >= 1] when it collides; with
    test-suffix mode on it is [name$] or [name$_k]. *)
Theorem component_name_alias (R U : gset string) (test : bool) (req : string) :
  (componentName R test req U ∉ R ∪ U) /\
  (test = false ->
     (req ∉ R ∪ U -> componentName R test req U = req) /\
     (req ∈ R ∪ U -> exists k, 1 <= k /\ componentName R test req U = suffixed req k)) /\
  (test = true -> exists k, componentName R test req U = cand (req +:+ "$") k).
Proof.
  assert (Hc : componentName R test req U = fst (getUniqueName R test req (afterWalkJs U))).
  { unfold componentName. by rewrite (alias_none R test req (afterWalkJs U)). }
  pose proof (getUniqueName_fresh R test req (afterWalkJs U)) as Hf.
  cbn [userVars usedNames afterWalkJs] in Hf.
  rewrite Hc. split; [set_solver|split].
  - intros ->. cbn [testName] in *. split.
    + intros Hreq. rewrite (getUniqueName_least R false req _ 0); [done|lia|].
      cbn [cand userVars usedNames afterWalkJs]. set_solver.
    + intros Hreq. destruct (getUniqueName_is_cand R false req (afterWalkJs U)) as [k Hk].
      rewrite Hk in Hf |- *. cbn [testName] in *. destruct k as [|k].
      * cbn [cand] in Hf. set_solver.
      * exists (S k). split; [lia|done].
  - intros ->. apply getUniqueName_is_cand.
Qed.

End RegistryClaims.

(** ** Facts about [generate]'s assembly *)

Module EmitFacts.
Import Emit.



Lemma keep_all_removed f : forall t k,
  (forall i, k <= i < k + length t -> f i = true) -> keep f k t = [].
Proof.
  induction t as [|c t IH]; intros k H; simpl; [done|].
  rewrite (H k) by (simpl; lia). apply IH. intros i Hi. apply H. simpl. lia.
Qed.


Lemma msRemove_ok m s e :
  s <= e -> e <= length (original m) ->
  exists m', msRemove m s e = Some m' /\ original m' = original m /\
    forall i, removedAt (removed m') i = removedAt (removed m) i || ((s <=? i) && (i <? e)).
Proof.
  intros Hse He. unfold msRemove.
  destruct (Nat.eqb_spec s e) as [->|Hne].
  - exists m. split; [done|split; [done|]]. intros i.
    destruct (Nat.leb_spec e i), (Nat.ltb_spec i e); simpl; try lia;
      by rewrite ?orb_false_r.
  - destruct (Nat.ltb_spec (length (original m)) e); [lia|].
    destruct (Nat.ltb_spec e s); [lia|].
    eexists. split; [reflexivity|split; [done|]]. intros i.
    cbn [removed]. unfold removedAt. rewrite existsb_app. simpl.
    by rewrite orb_false_r.
Qed.





Lemma noScissors_noCloser l :
  Forall (fun x => x <> scissors) l -> hasCloser l = false.
Proof.
  induction l as [|x l IH]; intros H; [done|].
  inversion H as [|? ? Hx Hl]; subst. simpl. destruct l as [|y l']; [done|].
  rewrite IH by done. destruct (N.eqb_spec x scissors); [done|done].
Qed.

Lemma hasCloser_cons x l : hasCloser (x :: l) = false -> hasCloser l = false.
Proof. simpl. destruct l; [done|]. intros H. apply orb_false_iff in H. tauto. Qed.

Lemma hasCloser_cons2 x y l :
  hasCloser (x :: y :: l) = ((x =? scissors)%N && (y =? rbracket)%N) || hasCloser (y :: l).
Proof. reflexivity. Qed.

Lemma splitGo_noCloser c : forall rest acc,
  hasCloser c = false -> head rest <> Some rbracket ->
  splitGo (c ++ rest) acc = splitGo rest (rev c ++ acc).
Proof.
  induction c as [|x c IH]; intros rest acc Hc Hr; [done|].
  cbn [app]. unfold splitGo at 1. fold splitGo.
  destruct (c ++ rest) as [|y r] eqn:E.
  - apply app_eq_nil in E as [-> ->]. done.
  - replace ((x =? scissors)%N && (y =? rbracket)%N) with false.
    + rewrite <- E, IH by (done || by eapply hasCloser_cons).
      cbn [rev]. by rewrite <- app_assoc.
    + destruct c as [|y' c'].
      * simpl in E. subst rest. simpl in Hr.
        destruct (N.eqb_spec y rbracket); [congruence|]. by rewrite andb_false_r.
      * simpl in E. injection E as -> _. simpl in Hc.
        apply orb_false_iff in Hc. symmetry. tauto.
Qed.

Lemma digit_not_scissors x : isDigit x = true -> x <> scissors.
Proof.
  unfold isDigit, scissors. intros H ->. done.
Qed.

Lemma digit_not_rbracket x : isDigit x = true -> x <> rbracket.
Proof.
  unfold isDigit, rbracket. intros H ->. done.
Qed.

Lemma split_segment c da db rest :
  hasCloser c = false -> digitsOk da -> digitsOk db ->
  splitGo (c ++ spanMarker da db ++ rest) [] = segPart (c, da, db) :: splitGo rest [].
Proof.
  intros Hc [Hda Dda] [Hdb Ddb].
  set (mid := [lbracket; scissors] ++ da ++ [dash] ++ db).
  assert (E : c ++ spanMarker da db ++ rest = c ++ (mid ++ (scissors :: rbracket :: rest))).
  { unfold spanMarker, mid. by rewrite <- !app_assoc. }
  rewrite E, splitGo_noCloser by (done || (unfold mid; simpl; discriminate)).
  rewrite splitGo_noCloser.
  - simpl. f_equal. rewrite app_nil_r, !rev_app_distr, !rev_involutive. simpl.
    done.
  - unfold mid. destruct da as [|d da']; [done|].
    inversion Dda as [|? ? Hd _]; subst. cbn [app].
    rewrite !hasCloser_cons2.
    assert (Hrest : hasCloser (d :: da' ++ dash :: db) = false).
    { apply noScissors_noCloser. constructor; [by apply digit_not_scissors|].
      apply Forall_app. split.
      - inversion Dda; subst. eapply Forall_impl; [done|]. intros. by apply digit_not_scissors.
      - constructor; [done|]. eapply Forall_impl; [done|]. intros. by apply digit_not_scissors. }
    rewrite Hrest. destruct (N.eqb_spec d rbracket) as [Hd'|];
      [by apply digit_not_rbracket in Hd|]. done.
  - done.
Qed.


Lemma spanDigits_app d rest :
  Forall (fun x => isDigit x = true) d ->
  (forall x r, rest = x :: r -> isDigit x = false) ->
  spanDigits (d ++ rest) = (d, rest).
Proof.
  intros Hd Hr. induction d as [|x d IH].
  - destruct rest as [|x r]; [done|]. simpl. by rewrite (Hr x r).
  - inversion Hd; subst. simpl. rewrite H1, IH by done. done.
Qed.

Lemma execPattern_segPart c da db :
  digitsOk da -> digitsOk db ->
  execPattern (segPart (c, da, db)) = Some (c, digitsVal da, digitsVal db).
Proof.
  intros [Hda Dda] [Hdb Ddb]. unfold execPattern, segPart.
  replace (rev (c ++ [lbracket; scissors] ++ da ++ [dash] ++ db))
    with (rev db ++ dash :: (rev da ++ scissors :: lbracket :: rev c)).
  2:{ rewrite !rev_app_distr. cbn [rev app]. by rewrite <- !app_assoc. }
  rewrite spanDigits_app.
  2:{ by apply Forall_rev. }
  2:{ intros x r H; injection H as Hx _; subst x; done. }
  destruct (rev db) as [|x r] eqn:Edb.
  { apply (f_equal (@rev N)) in Edb. rewrite rev_involutive in Edb. done. }
  cbn iota beta. rewrite N.eqb_refl.
  rewrite spanDigits_app.
  2:{ by apply Forall_rev. }
  2:{ intros x' r' H; injection H as Hx _; subst x'; done. }
  destruct (rev da) as [|x2 r2] eqn:Eda.
  { apply (f_equal (@rev N)) in Eda. rewrite rev_involutive in Eda. done. }
  cbn iota beta. rewrite !N.eqb_refl. cbn [andb].
  rewrite <- Eda, <- Edb, !rev_involutive. done.
Qed.


Lemma popLast_snoc ps x : popLast (ps ++ [x]) = (ps, x).
Proof. unfold popLast. rewrite rev_app_distr. simpl. by rewrite rev_involutive. Qed.

Lemma splitCloser_noCloser m : hasCloser m = false -> splitCloser m = [m].
Proof.
  intros H. unfold splitCloser. rewrite <- (app_nil_r m) at 1.
  rewrite splitGo_noCloser by done. simpl. by rewrite !app_nil_r, rev_involutive.
Qed.



Lemma emptied_source source :
  exists m, msRemove (newMagicString source) 0 (length source) = Some m /\
    original m = source /\ msToString m = [].
Proof.
  destruct (msRemove_ok (newMagicString source) 0 (length source)) as (m & Hm & Ho & Hr);
    [lia|done|].
  exists m. split; [done|]. split; [done|].
  unfold msToString. apply keep_all_removed. intros i Hi. rewrite Hr.
  apply orb_true_iff. right. rewrite Ho in Hi. cbn [original newMagicString] in Hi.
  apply andb_true_iff. split; [apply Nat.leb_le|apply Nat.ltb_lt]; lia.
Qed.

(** *** The origins of the characters *)













Lemma repeat_length_map {A B} (l : list A) (y : B) : map (fun _ => y) l = repeat y (length l).
Proof. induction l; simpl; congruence. Qed.

End EmitFacts.

(** ** Claims about the emitted code and its sources *)

Module EmitClaims.
Import Emit EmitFacts Source.




(** C7 (counterexample): without a filename no source entry is added to the
    map's sources, and a module whose text holds [✂]] outside any span
    marker makes [generate] throw although it has no span marker. *)
Lemma empty_module_no_filename :
  option_map (mapSources None)
    (assemble None (units "x") (newMagicString (units "x")) (units "ok")) = Some (Some []) /\
  assemble (Some "App.svelte") (units "x") (newMagicString (units "x"))
    [scissors; rbracket] = None.
Proof. split; vm_compute; reflexivity. Qed.

(** C7: when the filename is truthy and the module text holds no [✂]], the
    bundle is one source tagged with the filename, whose content is the
    original source with everything removed (empty text), followed by the
    module text; the map's [sources] is then one entry, the filename (made
    relative to [options.outputFilename] by [getRelativePath] when that is
    truthy), and its [sourcesContent] the original source. *)
Theorem empty_module_source_entry filename f file source code module :
  truthyFilename filename = Some f ->
  hasCloser module = false ->
  exists m,
    assemble filename source code module = Some [mkSource filename m; stringSource module] /\
    original m = source /\ msToString m = [] /\
    mapSources file [mkSource filename m; stringSource module] =
      match truthyFilename file with
      | Some o => option_map (fun s => [s]) (getRelativePath o f)
      | None => Some [f]
      end /\
    mapSourcesContent [mkSource filename m; stringSource module] = [source].
Proof.
  intros Hf Hm. unfold assemble.
  rewrite splitCloser_noCloser by done.
  change [module] with ([] ++ [module]). rewrite popLast_snoc.
  destruct (emptied_source source) as (m & Hr & Ho & Ht).
  rewrite Hr. exists m. split; [reflexivity|]. split; [done|]. split; [done|].
  assert (Hu : uniqueSources [mkSource filename m; stringSource module] [] =
               [(f, original m)]).
  { cbn [uniqueSources srcFilename srcContent].
    rewrite Hf, bool_decide_false by set_solver. reflexivity. }
  unfold mapSources, mapSourcesContent. rewrite Hu, Ho. split; [|done].
  cbn [map fst]. destruct (truthyFilename file) as [o|]; [|done].
  simpl. by destruct (getRelativePath o f).
Qed.

Lemma empty_module_source_entry_witness :
  exists m,
    assemble (Some "App.svelte") (units "x") (newMagicString (units "x")) (units "ok") =
      Some [mkSource (Some "App.svelte") m; stringSource (units "ok")] /\
    mapSources (Some "out/App.js") [mkSource (Some "App.svelte") m; stringSource (units "ok")] =
      Some ["../App.svelte"].
Proof.
  destruct (empty_module_source_entry (Some "App.svelte") "App.svelte" (Some "out/App.js")
    (units "x") (newMagicString (units "x")) (units "ok")) as (m & Ha & _ & _ & Hs & _).
  - reflexivity.
  - reflexivity.
  - exists m. split; [exact Ha|]. rewrite Hs. vm_compute. reflexivity.
Defined.

End EmitClaims.

(** ** Facts about the sigil replacement *)

Module SigilFacts.
Import Registry Emit Sigils.

Lemma spanWhile_length p t a r :
  spanWhile p t = (a, r) -> length a + length r = length t.
Proof.
  revert a r. induction t as [|c t IH]; intros a r H; simpl in H.
  - injection H as <- <-. done.
  - destruct (p c).
    + destruct (spanWhile p t) as [a' r'] eqn:E. injection H as <- <-.
      specialize (IH a' r' eq_refl). simpl. lia.
    + injection H as <- <-. done.
Qed.

Lemma spanWhile_app p a b :
  Forall (fun x => p x = true) a ->
  (forall x r, b = x :: r -> p x = false) ->
  spanWhile p (a ++ b) = (a, b).
Proof.
  intros Ha Hb. induction Ha as [|x a Hx Ha IH]; simpl.
  - destruct b as [|x r]; [done|]. simpl. by rewrite (Hb x r).
  - by rewrite Hx, IH.
Qed.

Lemma matchName_length t w r : matchName t = (w, r) -> length r <= length t.
Proof.
  unfold matchName. destruct (spanWhile isWordChar t) as [w1 r1] eqn:E1.
  apply spanWhile_length in E1.
  destruct r1 as [|c r2]; [intros H; injection H as <- <-; simpl; lia|].
  destruct (c =? dash)%N.
  - destruct (spanWhile isWordChar r2) as [w2 r3] eqn:E2. apply spanWhile_length in E2.
    intros H; injection H as <- <-. simpl in E1. lia.
  - intros H; injection H as <- <-. lia.
Qed.

Lemma matchName_word w rest :
  Forall (fun x => isWordChar x = true) w ->
  (forall x r, rest = x :: r -> isWordChar x = false /\ x <> dash) ->
  matchName (w ++ rest) = (w, rest).
Proof.
  intros Hw Hr. unfold matchName.
  rewrite spanWhile_app by (done || (intros x r E; by apply (Hr x r))).
  destruct rest as [|x r]; [done|].
  destruct (Hr x r eq_refl) as [_ Hd]. by rewrite (proj2 (N.eqb_neq x dash) Hd).
Qed.

Lemma word_not_sigil s x :
  s = percent \/ s = atSign -> isWordChar x = true -> (s =? x)%N = false.
Proof.
  intros Hs Hx. apply N.eqb_neq. intros <-.
  destruct Hs as [->| ->]; discriminate Hx.
Qed.

Section Fuel.
Variables (reservedNames : gset string) (test dev : bool) (shared : gset string)
  (templateVars : gmap string string) (ssr : bool).

Lemma replaceGo_fuel n : forall t st f1 f2,
  length t <= n -> length t <= f1 -> length t <= f2 ->
  replaceGo reservedNames test dev shared templateVars ssr f1 t st =
  replaceGo reservedNames test dev shared templateVars ssr f2 t st.
Proof.
  induction n as [|n IH]; intros t st f1 f2 Hn H1 H2.
  - destruct t; [|simpl in Hn; lia]. destruct f1, f2; done.
  - destruct t as [|c t'].
    + destruct f1, f2; done.
    + destruct f1 as [|g1]; [simpl in H1; lia|]. destruct f2 as [|g2]; [simpl in H2; lia|].
      simpl in Hn, H1, H2. cbn [replaceGo].
      destruct (isSigilChar ssr c).
      * destruct (spanWhile (N.eqb c) (c :: t')) as [run r1] eqn:E1.
        destruct (matchName r1) as [w r2] eqn:E2.
        destruct (sigilValue reservedNames test dev shared templateVars run w st) as [v st1].
        assert (length r2 <= length t').
        { apply matchName_length in E2. cbn [spanWhile] in E1. rewrite N.eqb_refl in E1.
          destruct (spanWhile (N.eqb c) t') as [a r] eqn:E3. injection E1 as _ <-.
          apply spanWhile_length in E3. lia. }
        rewrite (IH r2 st1 g1 g2) by lia. done.
      * rewrite (IH t' st g1 g2) by lia. done.
Qed.

Lemma replaceSigils_token s w rest st :
  s = percent \/ s = atSign ->
  w <> [] -> Forall (fun x => isWordChar x = true) w ->
  (forall x r, rest = x :: r -> isWordChar x = false /\ x <> dash) ->
  replaceSigils reservedNames test dev shared templateVars ssr (s :: w ++ rest) st =
  let '(v, st1) := sigilValue reservedNames test dev shared templateVars [s] w st in
  let '(out, st2) := replaceSigils reservedNames test dev shared templateVars ssr rest st1 in
  (v ++ out, st2).
Proof.
  intros Hs Hw Dw Hr. unfold replaceSigils at 1.
  change (length (s :: w ++ rest)) with (S (length (w ++ rest))). cbn [replaceGo].
  replace (isSigilChar ssr s) with true by (destruct Hs as [-> | ->]; reflexivity).
  change (s :: w ++ rest) with ([s] ++ (w ++ rest)).
  rewrite spanWhile_app.
  2:{ constructor; [apply N.eqb_refl|constructor]. }
  2:{ intros x r E. destruct w as [|y w']; [done|]. injection E as <- _.
      inversion Dw; subst. by apply word_not_sigil. }
  rewrite matchName_word by done.
  destruct (sigilValue reservedNames test dev shared templateVars [s] w st) as [v st1].
  unfold replaceSigils. rewrite (replaceGo_fuel (length (w ++ rest)) rest st1 _ (length rest))
    by (rewrite ?length_app; lia).
  done.
Qed.

End Fuel.

End SigilFacts.

(** ** Claims about the sigil replacement *)

Module SigilClaims.
Import Registry Emit Sigils SigilFacts.

(** C5 (counterexample): a [%slot] sigil with no entry in [templateVars] is
    replaced by the text [undefined]; nothing is raised. *)
Lemma missing_template_var_undefined :
  fst (replaceSigils ∅ false false ∅ ∅ false (units "x = %slot;") (afterWalkJs ∅, ∅)) =
  units "x = undefined;".
Proof. vm_compute. reflexivity. Qed.

Section Claims.
Variables (reservedNames : gset string) (test dev : bool) (shared : gset string)
  (templateVars : gmap string string) (ssr : bool).

(** C5: replacing the sigils never fails. A sigil [%name] (a name of [\w]
    characters, not followed by another [\w] character or a dash) becomes
    the value of [name] in [templateVars], or the text [undefined] when it
    has no entry, leaving the state unchanged; a helper sigil [@name]
    becomes [this.alias] of the name (its [Dev] variant in dev mode when
    [shared] has it), adding the name to [helpers] when it is in [shared].
    The rest of the text is then replaced from the resulting state. *)
Theorem sigil_substitution w rest c helpers :
  w <> [] -> Forall (fun x => isWordChar x = true) w ->
  (forall x r, rest = x :: r -> isWordChar x = false /\ x <> dash) ->
  replaceSigils reservedNames test dev shared templateVars ssr (percent :: w ++ rest) (c, helpers) =
    ((match templateVars !! textToString w with
      | Some v => units v
      | None => units "undefined"
      end) ++ fst (replaceSigils reservedNames test dev shared templateVars ssr rest (c, helpers)),
     snd (replaceSigils reservedNames test dev shared templateVars ssr rest (c, helpers))) /\
  replaceSigils reservedNames test dev shared templateVars ssr (atSign :: w ++ rest) (c, helpers) =
    (units (fst (alias reservedNames test (helperName dev shared (textToString w)) c)) ++
       fst (replaceSigils reservedNames test dev shared templateVars ssr rest
         (snd (alias reservedNames test (helperName dev shared (textToString w)) c),
          addHelper dev shared (textToString w) helpers)),
     snd (replaceSigils reservedNames test dev shared templateVars ssr rest
         (snd (alias reservedNames test (helperName dev shared (textToString w)) c),
          addHelper dev shared (textToString w) helpers))).
Proof.
  intros Hw Dw Hr. split.
  - rewrite replaceSigils_token by (auto || done).
    unfold sigilValue.
    rewrite bool_decide_false by (intros E; injection E; discriminate).
    rewrite bool_decide_true by done. unfold templateValue.
    destruct (replaceSigils _ _ _ _ _ _ rest (c, helpers)). done.
  - rewrite replaceSigils_token by (auto || done).
    unfold sigilValue. rewrite bool_decide_true by done.
    destruct (alias reservedNames test _ c) as [a c1].
    destruct (replaceSigils _ _ _ _ _ _ rest _). done.
Qed.

End Claims.

Lemma sigil_substitution_witness :
  fst (replaceSigils ∅ false false ∅ ∅ false (percent :: units "slot" ++ units ";")
        (afterWalkJs ∅, ∅)) = units "undefined;".
Proof.
  destruct (sigil_substitution ∅ false false ∅ ∅ false (units "slot") (units ";")
    (afterWalkJs ∅) ∅) as [Ha _].
  - discriminate.
  - repeat constructor.
  - intros x r E. injection E as <- <-. split; [reflexivity|discriminate].
  - rewrite Ha. vm_compute. reflexivity.
Defined.

End SigilClaims.

(** ** Claims about the check of the refs *)

Module RefClaims.
Import Refs.

(** C6: whenever a collected callee names a ref that is not declared, the
    check raises a fatal diagnostic with code [missing-ref], for a missing
    callee (the first one) and at its position; when [fuzzymatch] suggests
    a nonempty name, the message is [refs.<ref> does not exist] followed by
    the suggestion of that name. The check passes only when every callee
    names a declared ref. With the declared refs [{camera}] and the callee
    [refs.camra], the message suggests [camera] (under the edit-distance
    match of [fuzzymatchSpec]). *)
Theorem missing_ref_fatal :
  (forall fuzzymatch refs callees cl,
     cl ∈ callees -> calleeRef cl ∉ refs ->
     exists d cl0, checkRefs fuzzymatch refs callees = Fatal d /\
       diagCode d = "missing-ref" /\
       cl0 ∈ callees /\ (calleeRef cl0 ∉ refs) /\
       diagStart d = calleeStart cl0 /\ diagEnd d = calleeEnd cl0 /\
       (forall m, fuzzymatch (calleeRef cl0) refs = Some m -> m <> "" ->
          diagMessage d = "'refs." +:+ calleeRef cl0 +:+
            "' does not exist (did you mean 'refs." +:+ m +:+ "'?)")) /\
  (forall fuzzymatch refs callees,
     checkRefs fuzzymatch refs callees = Ok <-> forall cl, cl ∈ callees -> calleeRef cl ∈ refs) /\
  checkRefs fuzzymatchSpec ["camera"] [mkCallee "camra" 20 30] =
    Fatal (mkDiag "missing-ref"
      ("'refs.camra' does not exist (did you mean 'refs." +:+ "camera" +:+ "'?)") 20 30).
Proof.
  split; [|split].
  - intros fuzzymatch refs callees. induction callees as [|cl' rest IH]; intros cl Hin Hn.
    + by apply not_elem_of_nil in Hin.
    + cbn [checkRefs]. destruct (bool_decide (calleeRef cl' ∈ refs)) eqn:Eb.
      * apply bool_decide_eq_true in Eb.
        apply elem_of_cons in Hin as [->|Hin]; [done|].
        destruct (IH cl Hin Hn) as (d & cl0 & Hc & Hcode & Hin0 & Hn0 & Hs & He & Hm).
        exists d, cl0. repeat split; try done. by apply elem_of_cons; right.
      * apply bool_decide_eq_false in Eb.
        eexists _, cl'. split; [reflexivity|]. cbn [diagCode diagStart diagEnd diagMessage].
        repeat split; try done.
        { apply elem_of_cons. by left. }
        intros m Hm Hne. unfold missingRefMessage. rewrite Hm.
        rewrite bool_decide_false by done. reflexivity.
  - intros fuzzymatch refs callees. induction callees as [|cl' rest IH].
    + split; [|done]. intros _ cl Hin. by apply not_elem_of_nil in Hin.
    + cbn [checkRefs]. destruct (bool_decide (calleeRef cl' ∈ refs)) eqn:Eb.
      * apply bool_decide_eq_true in Eb. rewrite IH. split.
        -- intros H cl Hin. apply elem_of_cons in Hin as [->|Hin]; [done|]. by apply H.
        -- intros H cl Hin. apply H. apply elem_of_cons. by right.
      * apply bool_decide_eq_false in Eb. split; [discriminate|].
        intros H. exfalso. apply Eb, H. apply elem_of_cons. by left.
  - vm_compute. reflexivity.
Qed.

End RefClaims.

(** ** Claims about the warnings for unused members *)

Module WarningClaims.
Import Emit Warnings Source Constructor.

(** C9 (counterexample): a component whose default export declares a helper
    [foo] that the template never uses gets no [unused-helper] warning: the
    default export stops [walkJs], and so the compilation, with the fatal
    [default-export] error. *)
Lemma unused_helper_fatal :
  constructorWarnings (units "<script>export default { helpers: { foo } };</script>")
    (Some (mkScript 8 44 [mkStmt (ExportDefaultDeclaration [("helpers", [("foo", 36)])]) 8 44]))
    (fun _ => ∅)
  = CtorError (Refs.mkDiag "default-export" "A component cannot have a default export" 8 44) /\
  ~ (exists ws,
       constructorWarnings (units "<script>export default { helpers: { foo } };</script>")
         (Some (mkScript 8 44 [mkStmt (ExportDefaultDeclaration [("helpers", [("foo", 36)])]) 8 44]))
         (fun _ => ∅) = CtorWarnings ws /\
       mkWarning "unused-helper" "The 'foo' helper is unused" 36 ∈ ws).
Proof.
  split; [reflexivity|].
  intros (ws & E & _). vm_compute in E. discriminate.
Qed.

(** C9: the constructor issues no warning for declared-but-unused members:
    when it gets past [walkJs] the list of such warnings is empty, since the
    check runs only when [this.defaultExport] is set, which never happens;
    and a script with a default export (the object that declares such
    members) stops at the first one with the fatal [default-export] error,
    at that statement's range. *)
Theorem no_unused_member_warnings (source : text) (js : option Script)
    (used : string -> gset string) :
  (forall ws, constructorWarnings source js used = CtorWarnings ws -> ws = []) /\
  (forall s pre st rest p,
     js = Some s -> body s = pre ++ st :: rest ->
     Forall (fun x => isExportDefault x = false) pre ->
     stmtKind st = ExportDefaultDeclaration p ->
     constructorWarnings source js used =
       CtorError (Refs.mkDiag "default-export" "A component cannot have a default export"
                    (stmtStart st) (stmtEnd st))).
Proof.
  split.
  - intros ws. unfold constructorWarnings.
    destruct (walkJs source js); intros E; try discriminate.
    all: injection E as <-; reflexivity.
  - intros s pre st rest p -> Hbody Hpre Hk.
    assert (Hf : List.find isExportDefault (pre ++ st :: rest) = Some st).
    { clear Hbody. induction Hpre as [|x pre Hx _ IH]; simpl.
      - unfold isExportDefault. by rewrite Hk.
      - rewrite Hx. exact IH. }
    unfold constructorWarnings, walkJs. rewrite Hbody, Hf.
    by destruct pre.
Qed.

Lemma no_unused_member_warnings_witness :
  (forall ws,
     constructorWarnings (units "<script>export default { helpers: { foo } };</script>")
       (Some (mkScript 8 44 [mkStmt (ExportDefaultDeclaration [("helpers", [("foo", 36)])]) 8 44]))
       (fun _ => ∅) = CtorWarnings ws -> ws = []) /\
  constructorWarnings (units "<script>export default { helpers: { foo } };</script>")
    (Some (mkScript 8 44 [mkStmt (ExportDefaultDeclaration [("helpers", [("foo", 36)])]) 8 44]))
    (fun _ => ∅)
  = CtorError (Refs.mkDiag "default-export" "A component cannot have a default export" 8 44).
Proof.
  destruct (no_unused_member_warnings
              (units "<script>export default { helpers: { foo } };</script>")
              (Some (mkScript 8 44 [mkStmt (ExportDefaultDeclaration [("helpers", [("foo", 36)])]) 8 44]))
              (fun _ => ∅)) as [H1 H2].
  split; [exact H1|].
  apply (H2 (mkScript 8 44 [mkStmt (ExportDefaultDeclaration [("helpers", [("foo", 36)])]) 8 44])
            [] (mkStmt (ExportDefaultDeclaration [("helpers", [("foo", 36)])]) 8 44) []
            [("helpers", [("foo", 36)])]).
  - reflexivity.
  - reflexivity.
  - constructor.
  - reflexivity.
Defined.

End WarningClaims.


(** ** Facts about [walkJs]'s span markers and the indentation helpers *)

Module SourceFacts.
Import Emit EmitFacts Sigils SigilFacts Source.

(** *** The numbers of a span marker read back *)

Lemma units_cons c s : units (String c s) = Ascii.N_of_ascii c :: units s.
Proof. reflexivity. Qed.

Lemma units_app s1 s2 : units (s1 +:+ s2) = units s1 ++ units s2.
Proof. induction s1 as [|c s1 IH]; [done|]. unfold units in *. simpl. by rewrite IH. Qed.

Lemma pretty_N_char_code m :
  (m < 10)%N -> Ascii.N_of_ascii (pretty_N_char m) = (48 + m)%N.
Proof.
  intros Hm.
  assert (m = 0 \/ m = 1 \/ m = 2 \/ m = 3 \/ m = 4 \/ m = 5 \/ m = 6 \/ m = 7 \/
          m = 8 \/ m = 9)%N as Hc by lia.
  repeat destruct Hc as [->|Hc]; try reflexivity; subst; reflexivity.
Qed.

Lemma digitsVal_snoc d c :
  digitsVal (d ++ [c]) = digitsVal d * 10 + N.to_nat (c - 48).
Proof. unfold digitsVal. by rewrite fold_left_app. Qed.

Lemma pretty_N_go_digits x : forall s,
  exists d, units (pretty_N_go x s) = d ++ units s /\
    Forall (fun c => isDigit c = true) d /\ digitsVal d = N.to_nat x /\
    ((0 < x)%N -> d <> []).
Proof.
  induction (N.lt_wf_0 x) as [x _ IH]; intros s.
  destruct (decide (x = 0)%N) as [->|Hx].
  - exists []. rewrite pretty_N_go_0. done.
  - rewrite pretty_N_go_step by lia.
    destruct (IH (x `div` 10)%N (N.div_lt x 10 ltac:(lia) eq_refl)
                (String (pretty_N_char (x `mod` 10)) s)) as (d & Hd & Dd & Vd & _).
    assert (Hm : (x `mod` 10 < 10)%N) by (apply N.mod_lt; lia).
    pose proof (N.div_mod x 10 ltac:(lia)) as Hdm.
    rewrite units_cons, pretty_N_char_code in Hd by done.
    remember (x `div` 10)%N as q. remember (x `mod` 10)%N as r.
    exists (d ++ [(48 + r)%N]). split; [|split; [|split]].
    + rewrite Hd. by rewrite <- app_assoc.
    + apply Forall_app. split; [done|]. constructor; [|done].
      unfold isDigit. apply andb_true_iff. split; [apply N.leb_le|apply N.leb_le]; lia.
    + rewrite digitsVal_snoc, Vd.
      replace (48 + r - 48)%N with r by lia. rewrite Hdm. lia.
    + intros _ Hnil. apply app_eq_nil in Hnil. destruct Hnil as [_ Hnil]. discriminate.
Qed.

Lemma pretty_digits (n : nat) :
  digitsOk (units (pretty n)) /\ digitsVal (units (pretty n)) = n.
Proof.
  change (pretty n) with (pretty (N.of_nat n)). unfold pretty, pretty_N.
  destruct (decide (N.of_nat n = 0)%N) as [Hn|Hn].
  - assert (n = 0) as -> by lia. split; [|reflexivity].
    split; [discriminate|]. repeat constructor.
  - destruct (pretty_N_go_digits (N.of_nat n) "") as (d & Hd & Dd & Vd & Ne).
    change (units "") with (@nil N) in Hd. rewrite Hd, app_nil_r. split; [split; [apply Ne; lia|done]|]. rewrite Vd. lia.
Qed.

(** *** [split('✂]')] and [pop()] *)

Lemma popLast_single x : popLast [x] = ([], x).
Proof. reflexivity. Qed.

Lemma popLast_cons x l :
  l <> [] -> popLast (x :: l) = (x :: fst (popLast l), snd (popLast l)).
Proof.
  intros Hl. destruct (exists_last Hl) as (l' & y & ->).
  rewrite app_comm_cons, !popLast_snoc. reflexivity.
Qed.

Lemma splitGo_nonempty s acc : splitGo s acc <> [].
Proof.
  revert acc. induction s as [|x [|y rest] IH]; intros acc; [done|done|].
  unfold splitGo at 1; fold splitGo.
  destruct (_ && _); [done|]. apply IH.
Qed.

Lemma splitGo_cons2 x y rest acc :
  splitGo (x :: y :: rest) acc =
    if (x =? scissors)%N && (y =? rbracket)%N then rev acc :: splitGo rest []
    else splitGo (y :: rest) (x :: acc).
Proof. reflexivity. Qed.

Lemma splitGo_join n : forall s acc, length s <= n ->
  concat (map (fun p => p ++ [scissors; rbracket]) (fst (popLast (splitGo s acc)))) ++
    snd (popLast (splitGo s acc)) = rev acc ++ s.
Proof.
  induction n as [|n IH]; intros s acc Hn.
  - destruct s; [|simpl in Hn; lia]. simpl. by rewrite app_nil_r.
  - destruct s as [|x [|y rest]].
    + simpl. by rewrite app_nil_r.
    + simpl. done.
    + rewrite splitGo_cons2.
      destruct ((x =? scissors)%N && (y =? rbracket)%N) eqn:Ec.
      * apply andb_true_iff in Ec as [Ex Ey].
        apply N.eqb_eq in Ex, Ey. subst x y.
        rewrite popLast_cons by apply splitGo_nonempty. cbn [fst snd map concat].
        rewrite <- !app_assoc, IH by (simpl in *; lia). done.
      * rewrite IH by (simpl in *; lia). cbn [rev]. by rewrite <- app_assoc.
Qed.

Lemma hasCloser_snoc l x :
  hasCloser (l ++ [x]) =
    hasCloser l || (bool_decide (last l = Some scissors) && (x =? rbracket)%N).
Proof.
  induction l as [|a l IH]; [done|].
  destruct l as [|b l].
  - cbn. rewrite orb_false_r.
    destruct (N.eqb_spec a scissors) as [->|Ha].
    + rewrite bool_decide_true by done. done.
    + rewrite bool_decide_false by congruence. done.
  - change ((a :: b :: l) ++ [x]) with (a :: b :: (l ++ [x])).
    rewrite hasCloser_cons2. change (b :: l ++ [x]) with ((b :: l) ++ [x]).
    rewrite IH, hasCloser_cons2, last_cons_cons. by rewrite orb_assoc.
Qed.

Lemma hasCloser_rev_cons x acc :
  hasCloser (rev acc) = false ->
  (forall t, acc = scissors :: t -> x <> rbracket) ->
  hasCloser (rev (x :: acc)) = false.
Proof.
  intros Hacc Hx. cbn [rev]. rewrite hasCloser_snoc, Hacc. cbn [orb].
  destruct acc as [|y t]; [done|].
  cbn [rev]. rewrite last_snoc.
  destruct (N.eqb_spec y scissors) as [->|Hy].
  - rewrite bool_decide_true by done. cbn [andb].
    apply N.eqb_neq. by apply (Hx t).
  - rewrite bool_decide_false by congruence. done.
Qed.

Lemma splitGo_parts n : forall s acc, length s <= n ->
  hasCloser (rev acc) = false ->
  (forall t, acc = scissors :: t -> head s <> Some rbracket) ->
  Forall (fun p => hasCloser p = false) (splitGo s acc).
Proof.
  induction n as [|n IH]; intros s acc Hn Hacc Hhd.
  - destruct s; [|simpl in Hn; lia]. simpl. by constructor.
  - destruct s as [|x [|y rest]].
    + simpl. by constructor.
    + simpl. constructor; [|done]. apply hasCloser_rev_cons; [done|].
      intros t Ht Hx. apply (Hhd t Ht). by subst.
    + rewrite splitGo_cons2.
      destruct ((x =? scissors)%N && (y =? rbracket)%N) eqn:Ec.
      * constructor; [done|]. apply IH; [simpl in *; lia|done|done].
      * apply IH; [simpl in *; lia| |].
        -- apply hasCloser_rev_cons; [done|].
           intros t Ht Hx. apply (Hhd t Ht). by subst.
        -- intros t Ht. injection Ht as -> _. cbn [head]. intros Hy.
           injection Hy as ->. by rewrite !N.eqb_refl in Ec.
Qed.

(** *** [List.find] over a body without default export *)

Lemma find_none_Forall {A} (f : A -> bool) (l : list A) :
  Forall (fun x => f x = false) l -> List.find f l = None.
Proof. induction 1 as [|x l Hx _ IH]; simpl; [done|]. by rewrite Hx. Qed.

(** *** The trimming loops of [walkJs] *)

Lemma spaceAt_out source i : length source <= i -> spaceAt source i = false.
Proof. intros H. unfold spaceAt, text. by rewrite (lookup_ge_None_2 source i H). Qed.

Lemma skipForward_spec source : forall fuel a,
  length source <= a + fuel ->
  a <= skipForward fuel source a /\
  (forall i, a <= i < skipForward fuel source a -> spaceAt source i = true) /\
  spaceAt source (skipForward fuel source a) = false.
Proof.
  induction fuel as [|f IH]; intros a Hf; simpl.
  - split; [lia|split; [lia|]]. apply spaceAt_out. lia.
  - destruct (spaceAt source a) eqn:Ea.
    + destruct (IH (S a)) as (H1 & H2 & H3); [lia|].
      split; [lia|split; [|done]].
      intros i Hi. destruct (decide (i = a)) as [->|Hne]; [done|]. apply H2. lia.
    + split; [lia|split; [lia|done]].
Qed.

Lemma skipBackward_spec source : forall b,
  skipBackward b source <= b /\
  (forall i, skipBackward b source <= i < b -> spaceAt source i = true) /\
  (skipBackward b source = 0 \/ spaceAt source (skipBackward b source - 1) = false).
Proof.
  induction b as [|b IH]; simpl.
  - split; [lia|split; [lia|by left]].
  - destruct (spaceAt source b) eqn:Eb.
    + destruct IH as (H1 & H2 & H3). split; [lia|split; [|done]].
      intros i Hi. destruct (decide (i = b)) as [->|Hne]; [done|]. apply H2. lia.
    + split; [lia|split; [lia|]]. right. by rewrite Nat.sub_succ, Nat.sub_0_r.
Qed.

(** *** The line start of [getIndentationLevel] *)

Lemma lineStart_back (str : text) (k : nat) : forall d,
  (k = 0 \/ str !! (k - 1) = Some newline) ->
  (forall i, k <= i < k + d -> str !! i <> Some newline) ->
  lineStart str (k + d) = k.
Proof.
  induction d as [|d IH]; intros Hk Hd.
  - rewrite Nat.add_0_r. destruct k as [|k]; [done|]. simpl.
    destruct Hk as [Hk|Hk]; [lia|]. replace (S k - 1) with k in Hk by lia.
    by rewrite bool_decide_true.
  - rewrite Nat.add_succ_r. simpl. rewrite bool_decide_false by (apply Hd; lia).
    apply IH; [done|]. intros i Hi. apply Hd. lia.
Qed.

(** *** When [generate] throws *)

Lemma partSources_none filename code p :
  (execPattern p = None \/
   exists c s e, execPattern p = Some (c, s, e) /\
     (length (original code) < s \/ length (original code) < e)) ->
  partSources filename code p = None.
Proof.
  intros [Hp|(c & s & e & Hp & Hse)]; unfold partSources; rewrite Hp; [done|].
  unfold msSnip, msRemove. cbn [original].
  destruct (Nat.eqb_spec 0 s) as [<-|Hs0].
  - destruct Hse as [Hs|He]; [lia|].
    destruct (Nat.eqb_spec e (length (original code))); [lia|].
    destruct (Nat.ltb_spec (length (original code)) (length (original code))); [lia|].
    destruct (Nat.ltb_spec (length (original code)) e); [done|lia].
  - destruct (Nat.ltb_spec (length (original code)) s) as [Hs|Hs]; [done|].
    destruct Hse as [Hs'|He]; [lia|].
    destruct (Nat.ltb_spec s 0); [lia|]. cbn [original].
    destruct (Nat.eqb_spec e (length (original code))); [lia|].
    destruct (Nat.ltb_spec (length (original code)) (length (original code))); [lia|].
    destruct (Nat.ltb_spec (length (original code)) e); [done|lia].
Qed.

Lemma partsSources_none filename code p : forall parts,
  p ∈ parts -> partSources filename code p = None ->
  partsSources filename code parts = None.
Proof.
  induction parts as [|q parts IH]; intros Hin Hp.
  - by apply not_elem_of_nil in Hin.
  - apply elem_of_cons in Hin as [->|Hin]; simpl.
    + by rewrite Hp.
    + rewrite IH by done. by destruct (partSources filename code q).
Qed.

(** *** The lines of [increaseIndentation] *)

Lemma splitLines_noNl l : forall r acc,
  Forall (fun x => x <> newline) l -> splitLines (l ++ r) acc = splitLines r (rev l ++ acc).
Proof.
  induction l as [|x l IH]; intros r acc Hl; [done|].
  inversion Hl as [|? ? Hx Hl']; subst. cbn [app splitLines].
  rewrite (proj2 (N.eqb_neq x newline) Hx), IH by done. cbn [rev]. by rewrite <- app_assoc.
Qed.

Lemma text_newline_split (s : text) :
  Forall (fun x => x <> newline) s \/
  exists l s', s = l ++ newline :: s' /\ Forall (fun x => x <> newline) l.
Proof.
  induction s as [|x s IH]; [by left|].
  destruct (N.eq_dec x newline) as [->|Hx].
  - right. by exists [], s.
  - destruct IH as [IH|(l & s' & -> & Hl)].
    + left. by constructor.
    + right. exists (x :: l), s'. split; [done|]. by constructor.
Qed.

Lemma fold_lines_calls n : forall (s : text) c calls p, length s <= n ->
  p ∈ snd (fold_left (fun '(c, calls) (line : text) =>
             (c + length line + 1, if bool_decide (line = []) then calls else calls ++ [c]))
           (splitLines s []) (c, calls)) <->
  p ∈ calls \/ exists i, p = c + i /\ i < length s /\ s !! i <> Some newline /\
                   (i = 0 \/ s !! (i - 1) = Some newline).
Proof.
  induction n as [|n IH]; intros s c calls p Hn.
  { destruct s; [|simpl in Hn; lia]. simpl. split; [by left|].
    intros [H|(i & _ & Hi & _)]; [done|simpl in Hi; lia]. }
  destruct (text_newline_split s) as [Hs|(l & s' & -> & Hl)].
  - rewrite <- (app_nil_r s) at 1. rewrite splitLines_noNl by done.
    rewrite app_nil_r. cbn [splitLines fold_left snd].
    rewrite rev_involutive.
    destruct (bool_decide_reflect (s = [])) as [->|Hne].
    + split; [by left|]. intros [H|(i & _ & Hi & _)]; [done|simpl in Hi; lia].
    + rewrite elem_of_app, list_elem_of_singleton. split.
      * intros [H| ->]; [by left|right]. exists 0. split; [lia|].
        split; [destruct s; [done|simpl; lia]|].
        split; [|by left]. destruct s as [|x s]; [done|]. simpl. intros [= ->].
        inversion Hs; subst. done.
      * intros [H|(i & -> & Hi & Hnl & Hst)]; [by left|right].
        destruct Hst as [->|Hst]; [lia|].
        exfalso. apply (Forall_lookup_1 _ _ _ _ Hs) in Hst. done.
  - rewrite splitLines_noNl by done. cbn [splitLines]. rewrite N.eqb_refl.
    rewrite app_nil_r, rev_involutive. cbn [fold_left].
    rewrite IH by (rewrite length_app in Hn; simpl in Hn; lia).
    assert (Hlk : forall i, i < length l -> (l ++ newline :: s') !! i <> Some newline).
    { intros i Hi. unfold text. rewrite lookup_app_l by done. intros Hx.
      apply (Forall_lookup_1 _ _ _ _ Hl) in Hx. done. }
    assert (Hat : (l ++ newline :: s') !! length l = Some newline).
    { unfold text. rewrite lookup_app_r by lia. by rewrite Nat.sub_diag. }
    assert (Hafter : forall i', (l ++ newline :: s') !! (length l + S i') = s' !! i').
    { intros i'. unfold text. rewrite lookup_app_r by lia.
      by replace (length l + S i' - length l) with (S i') by lia. }
    rewrite length_app. cbn [length].
    assert (Hcalls : p ∈ (if bool_decide (l = []) then calls else calls ++ [c]) <->
                     p ∈ calls \/ (l <> [] /\ p = c)).
    { destruct (bool_decide_reflect (l = [])) as [->|Hne].
      - split; [by left|]. intros [H|[H _]]; [done|done].
      - rewrite elem_of_app, list_elem_of_singleton. split.
        + intros [H|H]; [by left|by right].
        + intros [H|[_ H]]; [by left|by right]. }
    rewrite Hcalls. split.
    + intros [[H|[Hne ->]]|(i' & -> & Hi' & Hnl & Hst)].
      * by left.
      * right. exists 0. split; [lia|]. split; [destruct l; [done|simpl; lia]|].
        split; [apply Hlk; destruct l; [done|simpl; lia]|by left].
      * right. exists (length l + S i'). split; [lia|]. split; [lia|].
        rewrite Hafter. split; [done|right].
        destruct (decide (i' = 0)) as [->|Hz].
        -- replace (length l + 1 - 1) with (length l) by lia. done.
        -- destruct Hst as [Hst|Hst]; [lia|].
           replace (length l + S i' - 1) with (length l + S (i' - 1)) by lia.
           by rewrite Hafter.
    + intros [H|(i & -> & Hi & Hnl & Hst)]; [by left; left|].
      destruct (decide (i < length l)) as [Hil|Hil].
      * destruct Hst as [->|Hst].
        -- left. right. split; [intros ->; simpl in Hil; lia|lia].
        -- exfalso. apply (Hlk (i - 1)); [lia|done].
      * destruct (decide (i = length l)) as [->|Hne]; [done|].
        right. exists (i - length l - 1). split; [lia|]. split; [lia|].
        destruct Hst as [Hi0|Hst]; [lia|].
        replace i with (length l + S (i - length l - 1)) in Hnl, Hst by lia.
        rewrite Hafter in Hnl. split; [done|].
        destruct (decide (i - length l - 1 = 0)) as [Hz|Hz]; [by left|right].
        replace (length l + S (i - length l - 1) - 1) with (length l + S (i - length l - 1 - 1))
          in Hst by lia.
        by rewrite Hafter in Hst.
Qed.

Lemma slice_lookup (str : text) a b i :
  slice str a b !! i = if decide (i < b - a) then str !! (a + i) else None.
Proof. unfold slice, text. rewrite lookup_take. case_decide; [by rewrite lookup_drop|done]. Qed.

Lemma slice_length (str : text) a b : length (slice str a b) = min (b - a) (length str - a).
Proof. unfold slice. rewrite length_take, length_drop. lia. Qed.

(** *** The search of [detectIndentation] *)

Lemma spaceAt_in (str : text) i : spaceAt str i = true -> i < length str.
Proof.
  unfold spaceAt. destruct (str !! i) eqn:E; [|done]. intros _. by apply lookup_lt_Some in E.
Qed.

Lemma detectGo_none (str : text) : forall fuel i,
  (forall j, i <= j -> lineStartAt str j && spaceAt str j = false) ->
  detectGo fuel str i = units "    ".
Proof.
  induction fuel as [|f IH]; intros i H; simpl; [done|].
  destruct (length str <=? i); [done|]. rewrite (H i) by lia.
  apply IH. intros j Hj. apply H. lia.
Qed.

Lemma detectGo_skip (str : text) i0 : forall fuel i,
  i <= i0 -> i0 < length str -> i0 - i < fuel ->
  (forall j, i <= j < i0 -> lineStartAt str j && spaceAt str j = false) ->
  detectGo fuel str i = detectGo (fuel - (i0 - i)) str i0.
Proof.
  induction fuel as [|f IH]; intros i Hi Hlen Hf H; [lia|].
  destruct (decide (i = i0)) as [->|Hne]; [by rewrite Nat.sub_diag, Nat.sub_0_r|].
  cbn [detectGo]. destruct (Nat.leb_spec (length str) i); [lia|].
  rewrite (H i) by lia. rewrite (IH (S i)) by (lia || (intros j Hj; apply H; lia)).
  f_equal. lia.
Qed.

Lemma detectGo_at (str : text) i0 g :
  lineStartAt str i0 && spaceAt str i0 = true ->
  detectGo (S g) str i0 =
    let m := take 4 (fst (spanWhile isJsSpace (drop i0 str))) in
    if bool_decide (head m = Some tab) then [tab]
    else if length m =? 2 then units "  "
    else detectGo g str (i0 + length m).
Proof.
  intros H. pose proof H as H'. apply andb_true_iff in H' as [_ Hs].
  pose proof (spaceAt_in str i0 Hs) as Hl.
  cbn [detectGo]. destruct (Nat.leb_spec (length str) i0); [lia|].
  by rewrite H.
Qed.

(** *** [this.file] *)

Lemma prefix_app (d x : string) : String.prefix d (d +:+ x) = true.
Proof.
  induction d as [|a d IH]; simpl; [by destruct x|].
  destruct (Ascii.ascii_dec a a); [exact IH|done].
Qed.

Lemma prefix_true (d : string) : forall s, String.prefix d s = true -> exists r, s = d +:+ r.
Proof.
  induction d as [|a d IH]; intros s H; [by exists s|].
  destruct s as [|b s]; [done|]. simpl in H.
  destruct (Ascii.ascii_dec a b) as [<-|]; [|done].
  destruct (IH s H) as (r & ->). by exists r.
Qed.

Lemma str_length_app (d x : string) :
  String.length (d +:+ x) = String.length d + String.length x.
Proof. induction d as [|a d IH]; simpl; [done|by rewrite IH]. Qed.

Lemma substring_full (x : string) : String.substring 0 (String.length x) x = x.
Proof. induction x as [|a x IH]; simpl; [done|by rewrite IH]. Qed.

Lemma substring_app (d x : string) :
  String.substring (String.length d) (String.length x) (d +:+ x) = x.
Proof. induction d as [|a d IH]; simpl; [apply substring_full|exact IH]. Qed.

Lemma removeFirst_unfold (pat s : string) :
  removeFirst pat s =
    if String.prefix pat s then
      String.substring (String.length pat) (String.length s - String.length pat) s
    else
      match s with
      | EmptyString => EmptyString
      | String c s' => String c (removeFirst pat s')
      end.
Proof. by destruct s. Qed.

Lemma removeFirst_lead (d x : string) : removeFirst d (d +:+ x) = x.
Proof.
  rewrite removeFirst_unfold, prefix_app, str_length_app.
  replace (String.length d + String.length x - String.length d) with (String.length x) by lia.
  apply substring_app.
Qed.

Lemma removeFirst_absent (d : string) : forall s,
  (forall pre suf, s <> pre +:+ d +:+ suf) -> removeFirst d s = s.
Proof.
  induction s as [|c s IH]; intros H; rewrite removeFirst_unfold.
  - destruct (String.prefix d "") eqn:E; [|done].
    destruct (prefix_true d _ E) as (r & Hr). by destruct (H "" r).
  - destruct (String.prefix d (String c s)) eqn:E.
    + destruct (prefix_true d _ E) as (r & Hr). by destruct (H "" r).
    + f_equal. apply IH. intros pre suf Hs. apply (H (String c pre) suf).
      simpl. by rewrite Hs.
Qed.

Lemma index_cons0 (d : string) b s :
  String.index 0 d (String b s) =
    if String.prefix d (String b s) then Some 0
    else match String.index 0 d s with Some n => Some (S n) | None => None end.
Proof. reflexivity. Qed.

Lemma index_occurs (d suf : string) : forall pre,
  String.index 0 d (pre +:+ d +:+ suf) <> None.
Proof.
  induction pre as [|c pre IH].
  - change ("" +:+ d +:+ suf) with (d +:+ suf). pose proof (prefix_app d suf) as Hp.
    destruct (d +:+ suf) as [|b s2] eqn:E.
    + destruct d; [done|discriminate].
    + rewrite index_cons0, Hp. done.
  - change (String c pre +:+ d +:+ suf) with (String c (pre +:+ d +:+ suf)).
    rewrite index_cons0.
    destruct (String.prefix d (String c (pre +:+ d +:+ suf))); [done|].
    destruct (String.index 0 d (pre +:+ d +:+ suf)); done.
Qed.

End SourceFacts.


(** ** Properties of [walkJs], [generate], the indentation helpers and
    [this.file] *)

Module SourceProps.
Import Emit EmitFacts Sigils SigilFacts Source SourceFacts.

(** A span marker [[✂a-b✂]] that [walkJs] writes after a chunk [c] free of
    [✂]] is cut by [generate]'s [split('✂]')] right after its digits, and
    [pattern.exec] on that part reads back [c], [a] and [b] exactly. *)
Theorem marker_split_exec (c : text) (a b : nat) (rest : text) :
  hasCloser c = false ->
  exists part, splitCloser (c ++ marker a b ++ rest) = part :: splitCloser rest /\
    execPattern part = Some (c, a, b).
Proof.
  intros Hc. destruct (pretty_digits a) as [Da Va]. destruct (pretty_digits b) as [Db Vb].
  exists (segPart (c, units (pretty a), units (pretty b))). split.
  - unfold splitCloser, marker. by apply split_segment.
  - rewrite execPattern_segPart by done. by rewrite Va, Vb.
Qed.

Lemma marker_split_exec_witness :
  exists part, splitCloser (units "x" ++ marker 3 12 ++ []) = part :: splitCloser [] /\
    execPattern part = Some (units "x", 3, 12).
Proof. apply marker_split_exec. reflexivity. Defined.

(** [module.split('✂]')] loses nothing: joining the parts but the last
    (each followed by [✂]]) and then the last part gives back the module,
    and no part contains [✂]]. *)
Theorem splitCloser_join (module : text) :
  (let '(parts, finalChunk) := popLast (splitCloser module) in
   concat (map (fun p => p ++ [scissors; rbracket]) parts) ++ finalChunk = module) /\
  Forall (fun p => hasCloser p = false) (splitCloser module).
Proof.
  split.
  - pose proof (splitGo_join (length module) module [] (le_n _)) as H.
    unfold splitCloser. destruct (popLast (splitGo module [])) as [parts fin]. exact H.
  - apply (splitGo_parts (length module)); [lia|done|done].
Qed.

(** The trimming of [walkJs]: for a script without default export whose
    first statement starts at a non-space character within the content
    [[cs, ce)], [walkJs] completes with the import declarations of the
    body, in order, and [this.javascript] is the single marker [[✂a-b✂]],
    where [a] is the first non-space offset from [cs] and [b] is one past
    the last non-space offset before [ce]; only whitespace lies in
    [[cs, a)] and [[b, ce)], and the first statement starts in [[a, b)]. *)
Theorem walkJs_trim (source : text) (s : Script) (st : Stmt) (rest : list Stmt) :
  body s = st :: rest ->
  Forall (fun x => isExportDefault x = false) (body s) ->
  contentStart s <= stmtStart st < contentEnd s ->
  spaceAt source (stmtStart st) = false ->
  exists a b, contentStart s <= a <= stmtStart st /\ stmtStart st < b <= contentEnd s /\
    (forall i, contentStart s <= i < a -> spaceAt source i = true) /\
    (forall i, b <= i < contentEnd s -> spaceAt source i = true) /\
    spaceAt source a = false /\ spaceAt source (b - 1) = false /\
    walkJs source (Some s) = WalkDone (List.filter isImport (body s)) (marker a b, []).
Proof.
  intros Hbody Hnd Hk Hsk.
  set (k := stmtStart st) in *. set (cs := contentStart s) in *. set (ce := contentEnd s) in *.
  destruct (skipForward_spec source (length source) cs) as (Fa & Fsp & Fend); [lia|].
  destruct (skipBackward_spec source ce) as (Bb & Bsp & Bend).
  set (a := skipForward (length source) source cs) in *.
  set (b := skipBackward ce source) in *.
  assert (Hak : a <= k).
  { destruct (decide (a <= k)) as [|Hn]; [done|]. rewrite (Fsp k) in Hsk by lia. done. }
  assert (Hkb : k < b).
  { destruct (decide (k < b)) as [|Hn]; [done|]. rewrite (Bsp k) in Hsk by lia. done. }
  exists a, b. split; [lia|split; [lia|]]. split; [done|split; [done|split; [done|]]].
  split; [destruct Bend as [Hb|Hb]; [lia|done]|].
  unfold walkJs. rewrite Hbody. rewrite <- Hbody, find_none_Forall by done.
  unfold walkJsJavascript, thisDefaultExport, exportRange. cbn [option_map].
  fold cs ce a b.
  destruct (Nat.eqb_spec a b); [lia|done].
Qed.

Lemma walkJs_trim_witness :
  exists a b, 8 <= a <= 9 /\ 9 < b <= 14 /\
    (forall i, 8 <= i < a -> spaceAt (units "<script> f(); </script>") i = true) /\
    (forall i, b <= i < 14 -> spaceAt (units "<script> f(); </script>") i = true) /\
    spaceAt (units "<script> f(); </script>") a = false /\
    spaceAt (units "<script> f(); </script>") (b - 1) = false /\
    walkJs (units "<script> f(); </script>") (Some (mkScript 8 14 [mkStmt OtherStatement 9 13]))
      = WalkDone [] (marker a b, []).
Proof.
  apply (walkJs_trim (units "<script> f(); </script>") (mkScript 8 14 [mkStmt OtherStatement 9 13])
           (mkStmt OtherStatement 9 13) []).
  - reflexivity.
  - repeat constructor.
  - cbn. lia.
  - reflexivity.
Defined.

(** [generate] throws (no bundle) as soon as one part before the last
    [✂]] does not end in a marker [[✂a-b] ([match] is [null]), or its
    marker names an offset beyond the end of the source ([snip] out of
    range). *)
Theorem assemble_bad_part (filename : option string) (source : text) (code : MagicString)
    (module p : text) :
  p ∈ fst (popLast (splitCloser module)) ->
  (execPattern p = None \/
   exists c s e, execPattern p = Some (c, s, e) /\
     (length (original code) < s \/ length (original code) < e)) ->
  assemble filename source code module = None.
Proof.
  intros Hin Hp. unfold assemble.
  destruct (popLast (splitCloser module)) as [parts fin]. cbn [fst] in Hin.
  rewrite (partsSources_none filename code p parts Hin) by (by apply partSources_none).
  done.
Qed.

Lemma assemble_bad_part_witness :
  assemble None (units "ab") (newMagicString (units "ab"))
    (units "x" ++ [lbracket; scissors] ++ units "1-9" ++ [scissors; rbracket] ++ units "end")
    = None.
Proof.
  apply (assemble_bad_part _ _ _ _ (units "x" ++ [lbracket; scissors] ++ units "1-9")).
  - refine (bool_decide_unpack _ _). vm_compute. exact I.
  - right. exists (units "x"), 1, 9. split; [reflexivity|]. right. simpl. lia.
Defined.

(** [getIndentationLevel(str, b)]: when [b] lies on a line that starts
    with the blanks [ws] (no newline among them), and the rest of the line
    up to [b] starts with a non-space (or is empty) and holds no newline,
    the result is [ws]. *)
Theorem getIndentationLevel_line (pre ws rest : text) (j : nat) :
  (pre = [] \/ last pre = Some newline) ->
  Forall (fun c => isJsSpace c = true /\ c <> newline) ws ->
  (forall i, i < j -> rest !! i <> Some newline) ->
  (j = 0 \/ exists c r, rest = c :: r /\ isJsSpace c = false) ->
  getIndentationLevel (pre ++ ws ++ rest) (length pre + length ws + j) = ws.
Proof.
  intros Hpre Hws Hrest Hj. unfold getIndentationLevel.
  rewrite <- Nat.add_assoc, lineStart_back.
  2:{ destruct Hpre as [->|Hl]; [by left|right].
      apply last_Some in Hl as (l' & ->). rewrite length_app. simpl.
      replace (length l' + 1 - 1) with (length l') by lia.
      rewrite <- app_assoc. unfold text. rewrite lookup_app_r by lia.
      by rewrite Nat.sub_diag. }
  2:{ intros i Hi. unfold text. rewrite lookup_app_r by lia.
      destruct (decide (i - length pre < length ws)) as [Hw|Hw].
      - rewrite lookup_app_l by done. intros Hnl.
        apply (Forall_lookup_1 _ _ _ _ Hws) in Hnl as [_ Hnl]. done.
      - rewrite lookup_app_r by lia. apply Hrest. lia. }
  unfold slice. replace (length pre + (length ws + j) - length pre) with (length ws + j) by lia.
  rewrite drop_app_length, take_app, take_ge by lia.
  replace (length ws + j - length ws) with j by lia.
  rewrite spanWhile_app; [done| |].
  - eapply Forall_impl; [exact Hws|]. intros c [Hc _]. exact Hc.
  - intros x r Hx. destruct Hj as [->|(c & r' & -> & Hc)]; [done|].
    destruct j as [|j]; [done|]. simpl in Hx. injection Hx as -> _. done.
Qed.

Lemma getIndentationLevel_line_witness :
  getIndentationLevel (units "a;" ++ [newline] ++ [tab; 32%N] ++ units "foo()")
    (length (units "a;" ++ [newline]) + length [tab; 32%N] + 3) = [tab; 32%N].
Proof.
  change (units "a;" ++ [newline] ++ [tab; 32%N] ++ units "foo()")
    with ((units "a;" ++ [newline]) ++ [tab; 32%N] ++ units "foo()").
  apply getIndentationLevel_line.
  - right. reflexivity.
  - repeat constructor; discriminate.
  - intros i Hi. destruct i as [|[|[|i]]]; simpl; try discriminate. lia.
  - right. exists 102%N, (units "oo()"). split; reflexivity.
Defined.

(** [increaseIndentation(code, start, end)] calls [code.prependRight(p, ...)]
    exactly at the offsets [p] in [[start, end)] that begin a nonempty
    line of the slice: [p] is [start] or follows a newline, and the
    character at [p] is not a newline. *)
Theorem increaseIndentation_calls (code : MagicString) (start end_ p : nat) :
  p ∈ increaseIndentation code start end_ <->
  start <= p < end_ /\
  (exists c, original code !! p = Some c /\ c <> newline) /\
  (p = start \/ original code !! (p - 1) = Some newline).
Proof.
  unfold increaseIndentation.
  rewrite (fold_lines_calls (length (slice (original code) start end_))) by lia.
  rewrite slice_length. split.
  - intros [H|(i & -> & Hi & Hnl & Hst)]; [by apply not_elem_of_nil in H|].
    rewrite slice_lookup in Hnl. rewrite decide_True in Hnl by lia.
    split; [lia|]. split.
    + destruct (lookup_lt_is_Some_2 (original code) (start + i)) as [c Hc]; [lia|].
      exists c. split; [done|]. intros ->. unfold text in Hnl. by rewrite Hc in Hnl.
    + destruct (decide (i = 0)) as [->|Hi0]; [left; lia|right].
      destruct Hst as [Hst|Hst]; [lia|].
      rewrite slice_lookup, decide_True in Hst by lia.
      by replace (start + i - 1) with (start + (i - 1)) by lia.
  - intros (Hp & (c & Hc & Hcn) & Hst). right. exists (p - start).
    assert (Hlen : p < length (original code)) by (by apply lookup_lt_Some in Hc).
    split; [lia|]. split; [lia|]. split.
    + rewrite slice_lookup, decide_True by lia.
      replace (start + (p - start)) with p by lia. rewrite Hc. intros [= Hx]. done.
    + destruct (decide (p = start)) as [->|Hne]; [left; lia|right].
      destruct Hst as [Hst|Hst]; [done|].
      rewrite slice_lookup, decide_True by lia.
      by replace (start + (p - start - 1)) with (p - 1) by lia.
Qed.

(** [detectIndentation(str)] answers four spaces when no line starts with
    whitespace. *)
Theorem detectIndentation_default (str : text) :
  (forall i, lineStartAt str i && spaceAt str i = false) ->
  detectIndentation str = units "    ".
Proof. intros H. unfold detectIndentation. apply detectGo_none. intros j _. apply H. Qed.

Lemma detectIndentation_default_witness :
  detectIndentation (units "a" ++ [newline] ++ units "b") = units "    ".
Proof.
  apply detectIndentation_default. intros i.
  destruct i as [|[|[|i]]]; try reflexivity.
  rewrite (spaceAt_out _ (S (S (S i)))) by (simpl; lia). apply andb_false_r.
Defined.

(** [detectIndentation(str)] decides on the first line that starts with
    whitespace (at offset [i0]): a tab there gives a tab, and a run of
    exactly two whitespace characters not led by a tab gives two spaces,
    whatever they are (two newlines of blank lines count as well). *)
Theorem detectIndentation_first (str : text) (i0 : nat) :
  (forall i, i < i0 -> lineStartAt str i && spaceAt str i = false) ->
  lineStartAt str i0 && spaceAt str i0 = true ->
  (str !! i0 = Some tab -> detectIndentation str = [tab]) /\
  (forall x y, fst (spanWhile isJsSpace (drop i0 str)) = [x; y] -> x <> tab ->
     detectIndentation str = units "  ").
Proof.
  intros Hbefore Hat.
  assert (Hl : i0 < length str).
  { apply andb_true_iff in Hat as [_ Hs]. by apply spaceAt_in. }
  assert (Hd : detectIndentation str =
    let m := take 4 (fst (spanWhile isJsSpace (drop i0 str))) in
    if bool_decide (head m = Some tab) then [tab]
    else if length m =? 2 then units "  "
    else detectGo (length str - i0) str (i0 + length m)).
  { unfold detectIndentation. rewrite (detectGo_skip str i0 _ 0) by (lia || (intros j Hj; apply Hbefore; lia)).
    replace (S (length str) - (i0 - 0)) with (S (length str - i0)) by lia.
    by apply detectGo_at. }
  split.
  - intros Ht. rewrite Hd. cbn zeta.
    pose proof (lookup_drop str i0 0) as E. rewrite Nat.add_0_r in E.
    unfold text in Ht. rewrite Ht in E.
    destruct (drop i0 str) as [|x r]; [done|]. injection E as ->.
    cbn [spanWhile]. replace (isJsSpace tab) with true by reflexivity.
    destruct (spanWhile isJsSpace r). by rewrite bool_decide_true.
  - intros x y Hxy Hx. rewrite Hd. cbn zeta. rewrite Hxy. cbn [take head length].
    rewrite bool_decide_false by congruence. done.
Qed.

Lemma detectIndentation_first_witness :
  detectIndentation (units "x" ++ [newline; newline; newline] ++ units "y") = units "  ".
Proof.
  destruct (detectIndentation_first (units "x" ++ [newline; newline; newline] ++ units "y") 2)
    as [_ H].
  - intros i Hi. destruct i as [|[|i]]; [reflexivity|reflexivity|lia].
  - reflexivity.
  - apply (H newline newline); [reflexivity|discriminate].
Defined.

(** [this.file]: a filename under the working directory [d], followed by
    a slash or a backslash, becomes the path relative to [d]. *)
Theorem componentFile_relative (d rel : string) (sep : Ascii.ascii) :
  (Ascii.N_of_ascii sep = 47 \/ Ascii.N_of_ascii sep = 92)%N ->
  componentFile (Some (d +:+ String sep rel)) (Some d) = Some rel.
Proof.
  intros Hsep. unfold componentFile.
  destruct (d +:+ String sep rel) as [|c f] eqn:E.
  { apply (f_equal String.length) in E. rewrite str_length_app in E. simpl in E. lia. }
  rewrite <- E, removeFirst_lead. unfold stripLeadingSep.
  destruct Hsep as [-> | ->]; reflexivity.
Qed.

Lemma componentFile_relative_witness :
  componentFile (Some "/home/u/App.svelte") (Some "/home/u") = Some "App.svelte".
Proof. exact (componentFile_relative "/home/u" "App.svelte" (Ascii.ascii_of_N 47) (or_introl eq_refl)). Defined.

(** [this.file] for a filename that does not contain the working directory
    [d] (a path outside it): nothing is removed but one leading slash or
    backslash, so an absolute path comes out without its leading
    separator. *)
Theorem componentFile_outside (d f : string) (sep : Ascii.ascii) :
  (Ascii.N_of_ascii sep = 47 \/ Ascii.N_of_ascii sep = 92)%N ->
  String.index 0 d (String sep f) = None ->
  componentFile (Some (String sep f)) (Some d) = Some f.
Proof.
  intros Hsep Hd. unfold componentFile. rewrite removeFirst_absent.
  - unfold stripLeadingSep. destruct Hsep as [-> | ->]; reflexivity.
  - intros pre suf E. rewrite E in Hd. by apply (index_occurs d suf pre).
Qed.

Lemma componentFile_outside_witness :
  componentFile (Some "/tmp/App.svelte") (Some "/home/u") = Some "tmp/App.svelte".
Proof.
  exact (componentFile_outside "/home/u" "tmp/App.svelte" (Ascii.ascii_of_N 47)
           (or_introl eq_refl) eq_refl).
Defined.

End SourceProps.


(** ** More facts about the replacement of the sigils *)

Module SigilMoreFacts.
Import Registry RegistryFacts WorldFacts Emit Sigils SigilFacts.

Lemma alias_keeps (R : gset string) (test : bool) n c x a :
  aliases c !! x = Some a -> aliases (snd (alias R test n c)) !! x = Some a.
Proof.
  intros Hx. destruct (aliases c !! n) as [b|] eqn:E.
  - by rewrite (alias_some R test n c b E).
  - rewrite (alias_none R test n c E). cbn [snd aliases].
    rewrite lookup_insert_ne; [done|]. intros ->. congruence.
Qed.

Section More.
Variables (reservedNames : gset string) (test dev : bool) (shared : gset string)
  (templateVars : gmap string string) (ssr : bool).

Lemma sigil_not_word s x :
  isSigilChar ssr s = true -> isWordChar x = true -> (s =? x)%N = false.
Proof.
  intros Hs Hx. apply N.eqb_neq. intros <-. unfold isSigilChar in Hs.
  apply orb_true_iff in Hs as [Hs|Hs]; [apply orb_true_iff in Hs as [Hs|Hs]|].
  - apply N.eqb_eq in Hs. subst. discriminate Hx.
  - apply N.eqb_eq in Hs. subst. discriminate Hx.
  - apply andb_true_iff in Hs as [_ Hs]. apply N.eqb_eq in Hs. subst. discriminate Hx.
Qed.

Lemma Forall_repeat_eqb s k : Forall (fun x => (s =? x)%N = true) (repeat s k).
Proof. induction k as [|k IH]; simpl; constructor; [apply N.eqb_refl|done]. Qed.

Lemma replaceSigils_run s k w rest st :
  isSigilChar ssr s = true ->
  w <> [] -> Forall (fun x => isWordChar x = true) w ->
  (forall x r, rest = x :: r -> isWordChar x = false /\ x <> dash) ->
  replaceSigils reservedNames test dev shared templateVars ssr (repeat s (S k) ++ w ++ rest) st =
  let '(v, st1) := sigilValue reservedNames test dev shared templateVars (repeat s (S k)) w st in
  let '(out, st2) := replaceSigils reservedNames test dev shared templateVars ssr rest st1 in
  (v ++ out, st2).
Proof.
  intros Hs Hw Dw Hr. unfold replaceSigils at 1.
  change (repeat s (S k) ++ w ++ rest) with (s :: (repeat s k ++ w ++ rest)).
  change (length (s :: repeat s k ++ w ++ rest)) with (S (length (repeat s k ++ w ++ rest))).
  cbn [replaceGo]. rewrite Hs.
  change (s :: repeat s k ++ w ++ rest) with (repeat s (S k) ++ (w ++ rest)).
  rewrite spanWhile_app.
  2:{ apply Forall_repeat_eqb. }
  2:{ intros x r E. destruct w as [|y w']; [done|]. injection E as <- _.
      inversion Dw; subst. by apply sigil_not_word. }
  rewrite matchName_word by done.
  destruct (sigilValue reservedNames test dev shared templateVars (repeat s (S k)) w st)
    as [v st1].
  unfold replaceSigils.
  rewrite (replaceGo_fuel reservedNames test dev shared templateVars ssr
             (length (repeat s k ++ w ++ rest)) rest st1 _ (length rest))
    by (rewrite ?length_app; lia).
  done.
Qed.

Lemma replaceGo_plain t : forall st,
  Forall (fun c => isSigilChar ssr c = false) t ->
  replaceGo reservedNames test dev shared templateVars ssr (length t) t st = (t, st).
Proof.
  induction t as [|c t IH]; intros st Ht; [done|].
  inversion Ht as [|? ? Hc Ht']; subst. cbn [length replaceGo]. rewrite Hc, IH by done.
  done.
Qed.

Lemma helperName_shared n : n ∈ shared -> helperName dev shared n ∈ shared.
Proof.
  intros Hn. unfold helperName. rewrite bool_decide_true by done.
  destruct (dev && bool_decide ((n +:+ "Dev") ∈ shared)) eqn:E; [|done].
  apply andb_true_iff in E as [_ E]. by apply bool_decide_eq_true in E.
Qed.

Lemma sigilValue_inv run w c h :
  h ⊆ snd (snd (sigilValue reservedNames test dev shared templateVars run w (c, h))) /\
  snd (snd (sigilValue reservedNames test dev shared templateVars run w (c, h))) ⊆ h ∪ shared /\
  userVars (fst (snd (sigilValue reservedNames test dev shared templateVars run w (c, h)))) =
    userVars c /\
  (forall x a, aliases c !! x = Some a ->
     aliases (fst (snd (sigilValue reservedNames test dev shared templateVars run w (c, h))))
       !! x = Some a).
Proof.
  unfold sigilValue.
  destruct (bool_decide (run = [atSign])).
  - pose proof (alias_userVars reservedNames test (helperName dev shared (textToString w)) c)
      as Hu.
    pose proof (alias_keeps reservedNames test (helperName dev shared (textToString w)) c)
      as Hk.
    destruct (alias reservedNames test (helperName dev shared (textToString w)) c)
      as [a c'] eqn:E. cbn [fst snd] in *.
    split; [|split; [|split; [done|exact Hk]]]; unfold addHelper.
    + case_bool_decide; set_solver.
    + case_bool_decide as Hn; [|set_solver].
      pose proof (helperName_shared _ Hn). set_solver.
  - destruct (bool_decide (run = [percent])); cbn [fst snd];
      (split; [set_solver|split; [set_solver|split; [done|auto]]]).
Qed.

Lemma replaceGo_inv fuel : forall t c h,
  h ⊆ snd (snd (replaceGo reservedNames test dev shared templateVars ssr fuel t (c, h))) /\
  snd (snd (replaceGo reservedNames test dev shared templateVars ssr fuel t (c, h)))
    ⊆ h ∪ shared /\
  userVars (fst (snd (replaceGo reservedNames test dev shared templateVars ssr fuel t (c, h))))
    = userVars c /\
  (forall x a, aliases c !! x = Some a ->
     aliases (fst (snd (replaceGo reservedNames test dev shared templateVars ssr fuel t (c, h))))
       !! x = Some a).
Proof.
  induction fuel as [|f IH]; intros t c h.
  { cbn. split; [set_solver|split; [set_solver|split; [done|auto]]]. }
  destruct t as [|c0 t']; cbn [replaceGo].
  { cbn. split; [set_solver|split; [set_solver|split; [done|auto]]]. }
  destruct (isSigilChar ssr c0).
  - destruct (spanWhile (N.eqb c0) (c0 :: t')) as [run r1].
    destruct (matchName r1) as [w r2].
    pose proof (sigilValue_inv run w c h) as (S1 & S2 & S3 & S4).
    destruct (sigilValue reservedNames test dev shared templateVars run w (c, h))
      as [v [c1 h1]]. cbn [fst snd] in S1, S2, S3, S4.
    pose proof (IH r2 c1 h1) as (I1 & I2 & I3 & I4).
    destruct (replaceGo reservedNames test dev shared templateVars ssr f r2 (c1, h1))
      as [out [c2 h2]]. cbn [fst snd] in *.
    split; [set_solver|split; [set_solver|split; [congruence|auto]]].
  - pose proof (IH t' c h) as (I1 & I2 & I3 & I4).
    destruct (replaceGo reservedNames test dev shared templateVars ssr f t' (c, h))
      as [out [c2 h2]]. cbn [fst snd] in *. auto.
Qed.

End More.

End SigilMoreFacts.


(** ** Properties of the replacement of the sigils *)

Module SigilProps.
Import Registry Emit Sigils SigilFacts SigilMoreFacts.

Section Props.
Variables (reservedNames : gset string) (test dev : bool) (shared : gset string)
  (templateVars : gmap string string) (ssr : bool).

(** Escaped sigils: a run of [k + 1] equal sigil characters before a name,
    other than a single [@] or [%] ([@@name], [%%%name], or [#name] when
    generating [ssr]), loses one sigil character and keeps the name; the
    state (component and helpers) is left unchanged for it. *)
Theorem sigil_escape s k w rest st :
  isSigilChar ssr s = true -> (s = hashSign \/ 0 < k) ->
  w <> [] -> Forall (fun x => isWordChar x = true) w ->
  (forall x r, rest = x :: r -> isWordChar x = false /\ x <> dash) ->
  replaceSigils reservedNames test dev shared templateVars ssr (repeat s (S k) ++ w ++ rest) st =
    (repeat s k ++ w ++ fst (replaceSigils reservedNames test dev shared templateVars ssr rest st),
     snd (replaceSigils reservedNames test dev shared templateVars ssr rest st)).
Proof.
  intros Hs Hk Hw Dw Hr. rewrite replaceSigils_run by done.
  assert (Hv : sigilValue reservedNames test dev shared templateVars (repeat s (S k)) w st =
               (repeat s k ++ w, st)).
  { unfold sigilValue. destruct st as [c h].
    assert (Hne : forall y, (s = hashSign \/ 0 < k) -> y <> hashSign -> repeat s (S k) <> [y]).
    { intros y [->|Hk'] Hy E.
      - destruct k; [injection E as E; by subst|discriminate].
      - destruct k; [lia|discriminate]. }
    rewrite bool_decide_false by (apply Hne; [done|discriminate]).
    rewrite bool_decide_false by (apply Hne; [done|discriminate]). done. }
  rewrite Hv. destruct (replaceSigils _ _ _ _ _ _ rest st). by rewrite <- app_assoc.
Qed.

(** Text without a sigil character ([%], [@], and [#] for [ssr]) comes out
    of the replacement unchanged, with the state unchanged. *)
Theorem sigil_free_text t st :
  Forall (fun c => isSigilChar ssr c = false) t ->
  replaceSigils reservedNames test dev shared templateVars ssr t st = (t, st).
Proof. intros Ht. unfold replaceSigils. by apply replaceGo_plain. Qed.

(** Whatever the text, the replacement only adds names of [shared] to
    [helpers] (never removes one), leaves [userVars] as it is, and keeps
    every alias already made. *)
Theorem replaceSigils_state t c h :
  let '(c', h') := snd (replaceSigils reservedNames test dev shared templateVars ssr t (c, h)) in
  h ⊆ h' /\ h' ⊆ h ∪ shared /\ userVars c' = userVars c /\
  (forall x a, aliases c !! x = Some a -> aliases c' !! x = Some a).
Proof.
  unfold replaceSigils.
  pose proof (replaceGo_inv reservedNames test dev shared templateVars ssr (length t) t c h)
    as (I1 & I2 & I3 & I4).
  destruct (snd (replaceGo reservedNames test dev shared templateVars ssr (length t) t (c, h)))
    as [c' h']. auto.
Qed.

End Props.

Lemma sigil_escape_witness :
  replaceSigils ∅ false false ∅ ∅ true (repeat hashSign 1 ++ units "each" ++ units " ")
    (afterWalkJs ∅, ∅) =
  (repeat hashSign 0 ++ units "each" ++
     fst (replaceSigils ∅ false false ∅ ∅ true (units " ") (afterWalkJs ∅, ∅)),
   snd (replaceSigils ∅ false false ∅ ∅ true (units " ") (afterWalkJs ∅, ∅))).
Proof.
  apply sigil_escape.
  - reflexivity.
  - by left.
  - discriminate.
  - repeat constructor.
  - intros x r E. injection E as <- <-. split; [reflexivity|discriminate].
Defined.

Lemma sigil_free_text_witness :
  replaceSigils ∅ false false ∅ ∅ false (units "a#b") (afterWalkJs ∅, ∅) =
  (units "a#b", (afterWalkJs ∅, ∅)).
Proof. apply sigil_free_text. repeat constructor. Defined.

End SigilProps.


(** ** More facts about the child allocators *)

Module MakerFacts.
Import Registry RegistryFacts WorldFacts.

Section MakerFacts.
Variable reservedNames : gset string.
Variable test : bool.

Lemma step_makers_grow o w k l :
  makers w !! k = Some l ->
  exists l', makers (snd (step reservedNames test o w)) !! k = Some l' /\ l ⊆ l'.
Proof.
  intros Hk. destruct o as [n|n| |k' n]; cbn [step].
  - destruct (alias reservedNames test n (comp w)). by exists l.
  - destruct (getUniqueName reservedNames test n (comp w)). by exists l.
  - exists l. split; [|done]. cbn [snd makers]. by apply lookup_app_l_Some.
  - destruct (makers w !! k') as [l0|] eqn:E; [|by exists l].
    destruct (makerCall test (comp w) l0 n) as [a l1] eqn:M. cbn [snd makers].
    destruct (decide (k = k')) as [->|Hne].
    + exists l1. rewrite list_lookup_insert_eq by (by apply lookup_lt_Some in Hk).
      split; [done|]. rewrite Hk in E. injection E as ->.
      unfold makerCall in M. injection M as _ <-. set_solver.
    + exists l. rewrite list_lookup_insert_ne by done. done.
Qed.

Lemma run_makers_grow os : forall w k l,
  makers w !! k = Some l ->
  exists l', makers (run reservedNames test os w) !! k = Some l' /\ l ⊆ l'.
Proof.
  induction os as [|o os IH]; intros w k l Hk; simpl; [by exists l|].
  destruct (step_makers_grow o w k l Hk) as (l1 & H1 & S1).
  destruct (IH _ k l1 H1) as (l2 & H2 & S2). exists l2. split; [done|set_solver].
Qed.

Lemma search_free blocked name alias i fuel :
  blocked alias = false -> search blocked name alias i fuel = alias.
Proof. intros Hb. destruct fuel; simpl; by rewrite Hb. Qed.

End MakerFacts.

End MakerFacts.


(** ** Properties of the child allocators *)

Module MakerProps.
Import Registry RegistryFacts WorldFacts MakerFacts.

(** A closure returned by [getUniqueNameMaker] never hands out the same
    name twice: after one of its calls answered [a1], a later call of the
    same closure does not answer [a1], whatever requests were served in
    between. *)
Theorem maker_never_repeats (R : gset string) (test : bool) (w w1 : World) (os : list Op)
    (k : nat) (n1 n2 a1 : string) :
  step R test (OpMakerCall k n1) w = (Some a1, w1) ->
  fst (step R test (OpMakerCall k n2) (run R test os w1)) <> Some a1.
Proof.
  intros H1. cbn [step] in H1.
  destruct (makers w !! k) as [l|] eqn:Ek; [|discriminate].
  destruct (makerCall test (comp w) l n1) as [a l1] eqn:M.
  injection H1 as -> <-.
  assert (Hl1 : makers (mkWorld (comp w) (<[k:=l1]> (makers w))) !! k = Some l1).
  { cbn [makers]. rewrite list_lookup_insert_eq by (by apply lookup_lt_Some in Ek). done. }
  destruct (run_makers_grow R test os _ k l1 Hl1) as (l2 & H2 & S2).
  assert (Ha : a1 ∈ l2).
  { unfold makerCall in M. injection M as Ha <-. apply S2. rewrite <- Ha. set_solver. }
  cbn [step]. rewrite H2.
  pose proof (makerCall_fresh test (comp (run R test os (mkWorld (comp w) (<[k:=l1]> (makers w)))))
                l2 n2) as Hf.
  destruct (makerCall test _ l2 n2) as [a2 l3]. cbn [fst] in *.
  intros E. injection E as ->. set_solver.
Qed.

Lemma maker_never_repeats_witness :
  fst (step ∅ false (OpMakerCall 0 "x")
        (run ∅ false [OpAlias "x"]
           (snd (step ∅ false (OpMakerCall 0 "x")
                   (run ∅ false [OpGetUniqueNameMaker] (mkWorld (afterWalkJs ∅) [])))))) <>
    Some "x".
Proof.
  set (w := run ∅ false [OpGetUniqueNameMaker] (mkWorld (afterWalkJs ∅) [])).
  apply (maker_never_repeats ∅ false w (snd (step ∅ false (OpMakerCall 0 "x") w))
           [OpAlias "x"] 0 "x" "x" "x").
  vm_compute. reflexivity.
Defined.

(** The names a closure of [getUniqueNameMaker] hands out are not recorded
    in the component: with test mode off, whatever name [a] a call of a
    closure answers (the requested name or a suffixed one such as [x_1]),
    a following [getUniqueName(a)] answers [a] again. *)
Theorem maker_name_not_reserved (R U : gset string) (os : list Op) (k : nat)
    (n a : string) (w1 : World) :
  let w := run R false os (mkWorld (afterWalkJs U) []) in
  step R false (OpMakerCall k n) w = (Some a, w1) ->
  fst (step R false (OpGetUniqueName a) w1) = Some a.
Proof.
  intros w H.
  assert (Hs : makersSeeded R w).
  { apply run_seeded. intros k' l' Hl. cbn [makers] in Hl. by rewrite lookup_nil in Hl. }
  assert (HU : userVars (comp w) = U) by (unfold w; by rewrite run_userVars).
  cbn [step] in H. destruct (makers w !! k) as [l|] eqn:Ek; [|discriminate].
  pose proof (makerCall_fresh false (comp w) l n) as Hf.
  pose proof (Hs k l Ek) as Hl. rewrite HU in Hl.
  destruct (makerCall false (comp w) l n) as [b l1] eqn:M.
  injection H as -> <-. cbn [fst] in Hf.
  assert (Hg : fst (getUniqueName R false a (comp w)) = a).
  { rewrite (getUniqueName_least R false a (comp w) 0); [done|lia|].
    cbn [cand testName]. rewrite HU. set_solver. }
  cbn [step comp].
  destruct (getUniqueName R false a (comp w)) as [c c1]. cbn [fst] in Hg. by subst c.
Qed.

Lemma maker_name_not_reserved_witness :
  let w := run {["x"]} false [OpGetUniqueNameMaker] (mkWorld (afterWalkJs ∅) []) in
  fst (step {["x"]} false (OpMakerCall 0 "x") w) = Some "x_1" /\
  fst (step {["x"]} false (OpGetUniqueName "x_1")
         (snd (step {["x"]} false (OpMakerCall 0 "x") w))) = Some "x_1".
Proof.
  intros w. split; [vm_compute; reflexivity|].
  apply (maker_name_not_reserved {["x"]} ∅ [OpGetUniqueNameMaker] 0 "x" "x_1").
  vm_compute. reflexivity.
Defined.

End MakerProps.


(** ** Properties of the check of the refs *)

Module RefProps.
Import Refs.

Lemma string_app_empty (s : string) : s +:+ "" = s.
Proof. induction s as [|c s IH]; [done|]. change (String c s +:+ "") with (String c (s +:+ "")). by rewrite IH. Qed.

(** The check of [refs.<name>] callees reports the first callee, in
    collection order, whose ref is not declared; callees after it are not
    looked at. When [fuzzymatch] finds nothing (or the empty name), the
    message carries no suggestion. *)
Theorem checkRefs_first_miss (fuzzymatch : string -> list string -> option string)
    (refs : list string) (pre : list Callee) (cl : Callee) (rest : list Callee) :
  Forall (fun x => calleeRef x ∈ refs) pre -> calleeRef cl ∉ refs ->
  checkRefs fuzzymatch refs (pre ++ cl :: rest) =
    Fatal (mkDiag "missing-ref"
             (missingRefMessage (calleeRef cl) (fuzzymatch (calleeRef cl) refs))
             (calleeStart cl) (calleeEnd cl)) /\
  (fuzzymatch (calleeRef cl) refs = None \/ fuzzymatch (calleeRef cl) refs = Some "" ->
   missingRefMessage (calleeRef cl) (fuzzymatch (calleeRef cl) refs) =
     "'refs." +:+ calleeRef cl +:+ "' does not exist").
Proof.
  intros Hpre Hcl. split.
  - induction Hpre as [|x pre Hx Hpre IH]; cbn [app checkRefs].
    + by rewrite bool_decide_false.
    + by rewrite bool_decide_true.
  - intros Hm. unfold missingRefMessage.
    destruct Hm as [-> | ->]; [|rewrite bool_decide_true by done];
      by rewrite !string_app_empty.
Qed.

Lemma checkRefs_first_miss_witness :
  checkRefs (fun _ _ => None) ["a"] ([mkCallee "a" 0 1] ++ mkCallee "b" 5 6 :: [mkCallee "c" 7 8]) =
    Fatal (mkDiag "missing-ref" (missingRefMessage "b" None) 5 6) /\
  (None = @None string \/ None = Some "" -> missingRefMessage "b" None = "'refs." +:+ "b" +:+ "' does not exist").
Proof.
  apply (checkRefs_first_miss (fun _ _ => None) ["a"] [mkCallee "a" 0 1] (mkCallee "b" 5 6)).
  - repeat constructor.
  - cbn. set_solver.
Defined.

End RefProps.
